(** * pareto_chart.py: sampling, grouping and the cumulative series

    A shallow embedding of [src/pareto_chart.py] and the properties of its
    three stages:

    - [generate_synthetic_data] (the Sampler), together with the part of
      CPython's [random.choices] and [bisect.bisect] it calls;
    - [group_data] (the Aggregator);
    - the numeric part of [pareto_chart] (the Renderer): the counts, their
      running sum and the cumulative percentages handed to the plot.

    Conventions of the embedding.

    - A Python [int] is a [Z]; a [str] is a [string]; a list is a [list].
    - A Python [float] is an exact rational ([Q]): rounding, overflow and
      the special values of binary64 are outside the model.  True division
      of two ints is the exact quotient, and raises [ZeroDivisionError] on a
      zero divisor as in Python.  The statements made in this model are
      those that rounding leaves true.  The cumulative percentages are
      also computed in binary64 itself ([percent_cumsum64]), on the
      executable specification of IEEE 754 of the Standard Library, with
      the [OverflowError] of a quotient too large for a float.
    - An uncaught exception is a value [Raise e] of type [result].
    - The process-wide generator behind [random.random()] is a fixed
      sequence [rand : nat -> Q] and a cursor counting the draws made so
      far; a function that draws takes the cursor and returns the new one.
    - The iteration order of a Python [set] depends on string hashing and
      is not fixed by the language.  The list [list(set(data))] is
      therefore a parameter of [group_data], constrained by [set_listing]:
      it has no duplicates and has exactly the members of [data]. *)

From Stdlib Require Import ZArith QArith Qabs List String Bool Lia.
From Stdlib Require Import Permutation Sorted SpecFloat.
Import ListNotations.
Local Open Scope Z_scope.

(** ** Exceptions and results *)

Inductive exn : Type :=
| ZeroDivisionError
| IndexError
| ValueError
| OverflowError.

Inductive result (A : Type) : Type :=
| Ok (a : A)
| Raise (e : exn).

Arguments Ok {A} a.
Arguments Raise {A} e.

Definition bind {A B : Type} (r : result A) (k : A -> result B) : result B :=
  match r with
  | Ok a => k a
  | Raise e => Raise e
  end.

Notation "x <- r ;; k" := (bind r (fun x => k))
  (at level 61, r at next level, right associativity).

(** A list comprehension whose body may raise: elements are evaluated from
    left to right and the first exception ends the comprehension. *)
Fixpoint comprehension {A B : Type} (f : A -> result B) (l : list A)
  : result (list B) :=
  match l with
  | [] => Ok []
  | a :: t => b <- f a ;; bs <- comprehension f t ;; Ok (b :: bs)
  end.

(** [sum(l)] on ints. *)
Definition sum (l : list Z) : Z := fold_left Z.add l 0.

(** [len(l)]. *)
Definition len {A : Type} (l : list A) : Z := Z.of_nat (List.length l).

(** ** The Aggregator: [group_data] *)

(** [data.count(x)]. *)
Fixpoint count (x : string) (data : list string) : Z :=
  match data with
  | [] => 0
  | y :: t => (if String.eqb y x then 1 else 0) + count x t
  end.

(** What the language guarantees about [list(set(data))]. *)
Definition set_listing (data categories : list string) : Prop :=
  NoDup categories /\ forall x, In x categories <-> In x data.

(** One listing, for running the model: every name once, where it occurs
    last in [data]. *)
Definition listing_of (data : list string) : list string :=
  nodup string_dec data.

(** [sorted(l, key=key, reverse=reverse)].  Python's sort is stable, also
    with [reverse=True]: entries with equal keys keep their input order.
    A stable sort is determined by that property, so it is written here as
    an insertion sort that never moves an entry past an equal key. *)
Definition goes_before (reverse : bool) (kx ky : Z) : bool :=
  if reverse then ky <=? kx else kx <=? ky.

Section StableSort.
Context {A : Type} (key : A -> Z) (reverse : bool).

Fixpoint insert (x : A) (l : list A) : list A :=
  match l with
  | [] => [x]
  | y :: t =>
      if goes_before reverse (key x) (key y) then x :: y :: t
      else y :: insert x t
  end.

Definition sorted (l : list A) : list A := fold_right insert [] l.
End StableSort.

(** [group_data(data, reverse)], line 34, on the listing [categories] of
    line 33.  The default of [reverse] is [True]. *)
Definition group_data (categories data : list string) (reverse : bool)
  : list (string * Z) :=
  sorted snd reverse
    (map (fun category => (category, count category data)) categories).

Definition names (out : list (string * Z)) : list string := map fst out.
Definition counts (out : list (string * Z)) : list Z := map snd out.

(** ** The Sampler: [generate_synthetic_data] *)

(** [a / b] on two ints. *)
Definition truediv (a b : Z) : result Q :=
  if b =? 0 then Raise ZeroDivisionError else Ok (inject_Z a / inject_Z b)%Q.

(** [x < y] on floats. *)
Definition Qltb (x y : Q) : bool := negb (Qle_bool y x).

(** [l[-1]]. *)
Fixpoint last_item {A : Type} (l : list A) : result A :=
  match l with
  | [] => Raise IndexError
  | [a] => Ok a
  | _ :: t => last_item t
  end.

(** [itertools.accumulate(weights)]: the first item is the first weight
    itself, each later one adds a weight to the previous item. *)
Fixpoint accumulate_from (acc : Q) (weights : list Q) : list Q :=
  match weights with
  | [] => []
  | w :: t => (acc + w)%Q :: accumulate_from (acc + w)%Q t
  end.

Definition accumulate (weights : list Q) : list Q :=
  match weights with
  | [] => []
  | w :: t => w :: accumulate_from w t
  end.

(** [bisect.bisect(a, x, lo, hi)], that is [bisect_right]:
<<
    while lo < hi:
        mid = (lo + hi) // 2
        if x < a[mid]: hi = mid
        else: lo = mid + 1
    return lo
>>
    Each turn shrinks [hi - lo], so [hi - lo] turns are enough
    ([bisect_loop_fuel]).  [mid] stays below [hi]; [random.choices] calls
    it with [hi] the last index of [a]. *)
Fixpoint bisect_loop (fuel : nat) (a : list Q) (x : Q) (lo hi : nat) : nat :=
  match fuel with
  | O => lo
  | S fuel' =>
      if (lo <? hi)%nat then
        let mid := ((lo + hi) / 2)%nat in
        if Qltb x (nth mid a 0%Q) then bisect_loop fuel' a x lo mid
        else bisect_loop fuel' a x (mid + 1)%nat hi
      else lo
  end.

Definition bisect (a : list Q) (x : Q) (lo hi : nat) : nat :=
  bisect_loop (hi - lo) a x lo hi.

(** Code that may raise and may draw from the generator. *)
Definition rng : Type := nat.
Definition M (A : Type) : Type := rng -> result A * rng.

Definition ret {A : Type} (a : A) : M A := fun g => (Ok a, g).
Definition raise {A : Type} (e : exn) : M A := fun g => (Raise e, g).
Definition lift {A : Type} (r : result A) : M A := fun g => (r, g).
Definition bindM {A B : Type} (m : M A) (k : A -> M B) : M B :=
  fun g =>
    match m g with
    | (Ok a, g') => k a g'
    | (Raise e, g') => (Raise e, g')
    end.

Notation "x <~ m ;; k" := (bindM m (fun x => k))
  (at level 61, m at next level, right associativity).

Section Sampler.
(** The values [random.random()] returns, in order. *)
Variable rand : nat -> Q.

Definition random : M Q := fun g => (Ok (rand g), S g).

(** [[population[bisect(cum_weights, random() * total, 0, hi)]
      for i in repeat(None, k)]]. *)
Fixpoint draws (population : list string) (cum_weights : list Q)
    (total : Q) (hi : nat) (k : nat) : M (list string) :=
  match k with
  | O => ret []
  | S k' =>
      r <~ random ;;
      c <~ lift (match nth_error population
                         (bisect cum_weights (r * total)%Q 0 hi) with
                 | Some c => Ok c
                 | None => Raise IndexError
                 end) ;;
      cs <~ draws population cum_weights total hi k' ;;
      ret (c :: cs)
  end.

(** [random.choices(population, weights, k=k)] of CPython 3.9 and
    later, on the path taken when [weights] is given:
<<
    n = len(population)
    cum_weights = list(accumulate(weights))
    if len(cum_weights) != n: raise ValueError
    total = cum_weights[-1] + 0.0
    if total <= 0.0: raise ValueError
    hi = n - 1
    return [population[bisect(cum_weights, random() * total, 0, hi)]
            for i in repeat(None, k)]
>>
    The test that [total] is finite, of later versions, cannot fail on a
    rational.  [repeat(None, k)] is empty for a negative [k]. *)
Definition choices (population : list string) (weights : list Q) (k : Z)
  : M (list string) :=
  let n := List.length population in
  let cum_weights := accumulate weights in
  if negb (List.length cum_weights =? n)%nat then raise ValueError
  else
    c <~ lift (last_item cum_weights) ;;
    let total := (c + 0)%Q in
    if Qle_bool total 0 then raise ValueError
    else draws population cum_weights total (n - 1)%nat (Z.to_nat k).

(** [generate_synthetic_data(categories, num_samples)], lines 17-22. *)
Definition generate_synthetic_data (categories : list (string * Z))
    (num_samples : Z) : M (list string) :=
  let total_frequency := sum (map snd categories) in
  categories_distribution <~
    lift (comprehension
            (fun c => p <- truediv (snd c) total_frequency ;; Ok (fst c, p))
            categories) ;;
  let category_names := map fst categories_distribution in
  let category_probability := map snd categories_distribution in
  choices category_names category_probability num_samples.
End Sampler.

(** ** The Renderer: the series [pareto_chart] plots *)

(** [enumerate(l)]. *)
Definition enumerate {A : Type} (l : list A) : list (nat * A) :=
  combine (seq 0 (List.length l)) l.

(** One turn of the loop of lines 60-64 on the list [cumsum]. *)
Definition cumsum_step (cumsum : result (list Z)) (ic : nat * Z)
  : result (list Z) :=
  cs <- cumsum ;;
  let (i, count) := ic in
  if (i =? 0)%nat then Ok (cs ++ [count])
  else prev <- last_item cs ;; Ok (cs ++ [count + prev]).

(** Lines 59-64. *)
Definition running_sum (counts : list Z) : result (list Z) :=
  fold_left cumsum_step (enumerate counts) (Ok []).

(** [c / total * 100]. *)
Definition percent (total c : Z) : result Q :=
  q <- truediv c total ;; Ok (q * 100)%Q.

(** What the figure is drawn from: the bars, the points of the line on the
    second axis, the range of that axis and the dashed reference line. *)
Record figure : Type := {
  bar_x : list string;
  bar_height : list Z;
  line_x : list string;
  line_y : list Q;
  ylim : Z * Z;
  hline : Z * Z * Z
}.

(** [pareto_chart(data)] up to the calls that draw. *)
Definition pareto_chart (data : list (string * Z)) : result figure :=
  let categories := map fst data in
  let counts := map snd data in
  let total := sum counts in
  cumsum <- running_sum counts ;;
  percent_cumsum <- comprehension (percent total) cumsum ;;
  Ok {| bar_x := categories;
        bar_height := counts;
        line_x := categories;
        line_y := percent_cumsum;
        ylim := (0, 110);
        hline := (80, 0, len categories) |}.

(** The cumulative-percentage series as the specification words it: the
    sum of the counts up to and including the [i]-th, divided by the total
    of all counts, times 100. *)
Definition cumulative_percentage (counts : list Z) (i : nat) : Q :=
  (inject_Z (sum (firstn (S i) counts)) / inject_Z (sum counts) * 100)%Q.

(** ** The driver: [main] *)

(** Lines 94-95. *)
Definition _categories : list string :=
  ["A"; "B"; "C"; "D"; "E"; "F"; "G"; "H"; "I"]%string.
Definition _frequency : list Z := [37; 7; 5; 4; 3; 2; 1; 1; 1].

Section Main.
(** The values [random.random()] returns, in order. *)
Variable rand : nat -> Q.
(** [_frequency] as [random.shuffle] leaves it: some arrangement of the
    nine weights.  The shuffle takes its randomness from [getrandbits],
    not from [random.random()]. *)
Variable shuffled : list Z.
(** The order in which a set of names is listed by [list(set(...))]. *)
Variable set_order : list string -> list string.

(** [main()], lines 94-103: the figure it shows and the status it
    returns. *)
Definition main : M (figure * Z) :=
  let categories := combine _categories shuffled in
  let num_samples := 1000 in
  data <~ generate_synthetic_data rand categories num_samples ;;
  let grouped_data := group_data (set_order data) data true in
  fig <~ lift (pareto_chart grouped_data) ;;
  ret (fig, 0).
End Main.

(** ** The percentages in binary64 *)

(** An int as an unrounded binary float: mantissa [|z|], exponent 0. *)
Definition int_mantissa (z : Z) : spec_float :=
  match z with
  | Z0 => S754_zero false
  | Zpos p => S754_finite false p 0
  | Zneg p => S754_finite true p 0
  end.

(** [float(z)]: [z] rounded to binary64, to nearest, ties to even. *)
Definition float_of_int (z : Z) : spec_float :=
  binary_normalize 53 1024 z 0 false.

(** [a / b] on two ints in binary64.  CPython rounds the exact quotient
    once, to nearest with ties to even, whatever the size of the ints,
    and raises [OverflowError] when the result is too large for a float;
    [SFdiv] rounds the quotient of the two mantissas in that way. *)
Definition truediv64 (a b : Z) : result spec_float :=
  if b =? 0 then Raise ZeroDivisionError
  else
    match SFdiv 53 1024 (int_mantissa a) (int_mantissa b) with
    | S754_infinity _ => Raise OverflowError
    | q => Ok q
    end.

(** [c / total * 100] in binary64. *)
Definition percent64 (total c : Z) : result spec_float :=
  q <- truediv64 c total ;; Ok (SFmul 53 1024 q (float_of_int 100)).

(** Lines 58-66 in binary64: the running sum of the int counts, then
    [[c / total * 100 for c in cumsum]]. *)
Definition percent_cumsum64 (data : list (string * Z))
  : result (list spec_float) :=
  let counts := map snd data in
  let total := sum counts in
  cumsum <- running_sum counts ;;
  comprehension (percent64 total) cumsum.

(** The cumulative percentage as the specification words it, in the
    arithmetic of the code: the sum of the counts up to and including
    the [i]-th, an int, divided by the total of all counts, times 100. *)
Definition cumulative_percentage64 (counts : list Z) (i : nat)
  : result spec_float :=
  percent64 (sum counts) (sum (firstn (S i) counts)).

(** ** Vocabulary of the statements *)

(** A grouped-count sequence, in any order: one pair for each distinct
    name of some sample, with the number of times the name occurs in
    it. *)
Definition grouped_counts (sample : list string) (data : list (string * Z))
  : Prop :=
  NoDup (names data)
  /\ forall x c, In (x, c) data <-> In x sample /\ c = count x sample.

Definition is_infinity (x : spec_float) : bool :=
  match x with
  | S754_infinity _ => true
  | _ => false
  end.

(** The order [sorted] produces on keys: non-increasing when [reverse],
    non-decreasing otherwise. *)
Definition in_order (reverse : bool) (a b : Z) : Prop :=
  if reverse then b <= a else a <= b.

(** The same order on entries, through their keys. *)
Definition key_order {A : Type} (key : A -> Z) (reverse : bool) (a b : A)
  : Prop :=
  in_order reverse (key a) (key b).

(** The running sums of [l] on top of [acc]. *)
Fixpoint scan (acc : Z) (l : list Z) : list Z :=
  match l with
  | [] => []
  | c :: t => (acc + c) :: scan (acc + c) t
  end.

(** The sum of a list of floats. *)
Definition qsum (l : list Q) : Q := fold_right Qplus 0%Q l.

(** A generator for running the model: it returns 0, 1/2, 9/10 and then
    1/16 for ever. *)
Definition rand_demo (i : nat) : Q :=
  match i with
  | 0%nat => 0
  | 1%nat => 1 # 2
  | 2%nat => 9 # 10
  | _ => 1 # 16
  end%Q.

(** The weights of the repository's tests, and weights with two
    categories that are never expected. *)
Definition weights_demo : list (string * Z) :=
  [("A", 1); ("B", 5); ("C", 10)]%string.
Definition weights_sparse : list (string * Z) :=
  [("A", 0); ("B", 5); ("C", 0)]%string.

(** * Running the model *)

Example group_data_desc :
  group_data (listing_of ["b"; "a"; "b"; "c"; "b"; "c"]%string)
             ["b"; "a"; "b"; "c"; "b"; "c"]%string true
  = [("b", 3); ("c", 2); ("a", 1)]%string.
Proof. reflexivity. Qed.

Example group_data_asc :
  group_data ["c"; "a"; "b"]%string
             ["b"; "a"; "b"; "c"; "b"; "c"]%string false
  = [("a", 1); ("c", 2); ("b", 3)]%string.
Proof. reflexivity. Qed.

Example group_data_ties_keep_listing_order :
  group_data ["x"; "y"; "z"]%string ["z"; "y"; "x"; "y"]%string true
  = [("y", 2); ("x", 1); ("z", 1)]%string
  /\ group_data ["z"; "y"; "x"]%string ["z"; "y"; "x"; "y"]%string true
  = [("y", 2); ("z", 1); ("x", 1)]%string.
Proof. split; reflexivity. Qed.

Example sampler_three_weights :
  generate_synthetic_data
    rand_demo
    [("A", 1); ("B", 5); ("C", 10)]%string 5 0%nat
  = (Ok ["A"; "C"; "C"; "B"; "B"]%string, 5%nat).
Proof. reflexivity. Qed.

Example running_sum_four : running_sum [1; 2; 3; 4] = Ok [1; 3; 6; 10].
Proof. reflexivity. Qed.

Example pareto_chart_two :
  pareto_chart [("A", 3); ("B", 1)]%string
  = Ok {| bar_x := ["A"; "B"]%string; bar_height := [3; 1];
          line_x := ["A"; "B"]%string; line_y := [300 # 4; 400 # 4];
          ylim := (0, 110); hline := (80, 0, 2) |}.
Proof. reflexivity. Qed.

(** * Sums and lists *)

Arguments sum : simpl never.

Lemma fold_left_add_shift (l : list Z) (a : Z) :
  fold_left Z.add l a = a + fold_left Z.add l 0.
Proof.
  revert a; induction l as [|x l IH]; intros a; simpl.
  - lia.
  - rewrite IH, (IH x). lia.
Qed.

Lemma sum_nil : sum [] = 0.
Proof. reflexivity. Qed.

Lemma sum_cons (x : Z) (l : list Z) : sum (x :: l) = x + sum l.
Proof. unfold sum; simpl. apply fold_left_add_shift. Qed.

Lemma sum_Permutation (l1 l2 : list Z) :
  Permutation l1 l2 -> sum l1 = sum l2.
Proof.
  induction 1; rewrite ?sum_cons in *; lia.
Qed.

Lemma sum_map_add {A : Type} (f g : A -> Z) (l : list A) :
  sum (map (fun a => f a + g a) l) = sum (map f l) + sum (map g l).
Proof.
  induction l as [|a l IH]; simpl.
  - reflexivity.
  - rewrite !sum_cons, IH. lia.
Qed.

Lemma last_item_snoc {A : Type} (l : list A) (a : A) :
  last_item (l ++ [a]) = Ok a.
Proof.
  induction l as [|b l IH]; simpl.
  - reflexivity.
  - rewrite IH. destruct (l ++ [a]) eqn:E.
    + destruct l; discriminate.
    + reflexivity.
Qed.

Lemma last_item_cons {A : Type} (b : A) (l : list A) :
  l <> [] -> last_item (b :: l) = last_item l.
Proof. destruct l; [congruence | reflexivity]. Qed.

(** * The Aggregator *)

Lemma goes_before_true (reverse : bool) (a b : Z) :
  goes_before reverse a b = true -> in_order reverse a b.
Proof. unfold goes_before, in_order; destruct reverse; lia. Qed.

Lemma goes_before_false (reverse : bool) (a b : Z) :
  goes_before reverse a b = false -> in_order reverse b a.
Proof. unfold goes_before, in_order; destruct reverse; lia. Qed.

Lemma in_order_trans (reverse : bool) (a b c : Z) :
  in_order reverse a b -> in_order reverse b c -> in_order reverse a c.
Proof. unfold in_order; destruct reverse; lia. Qed.

Lemma in_order_antisym (reverse : bool) (a b : Z) :
  in_order reverse a b -> in_order reverse b a -> a = b.
Proof. unfold in_order; destruct reverse; lia. Qed.

Section SortedFacts.
Context {A : Type} (key : A -> Z) (reverse : bool).

Lemma insert_Permutation (x : A) (l : list A) :
  Permutation (insert key reverse x l) (x :: l).
Proof.
  induction l as [|y l IH]; simpl.
  - reflexivity.
  - destruct (goes_before reverse (key x) (key y)).
    + reflexivity.
    + rewrite IH. apply perm_swap.
Qed.

Lemma sorted_Permutation (l : list A) :
  Permutation (sorted key reverse l) l.
Proof.
  induction l as [|x l IH]; simpl.
  - reflexivity.
  - rewrite insert_Permutation. now apply perm_skip.
Qed.

Lemma insert_HdRel (a x : A) (l : list A) :
  key_order key reverse a x ->
  HdRel (key_order key reverse) a l ->
  HdRel (key_order key reverse) a (insert key reverse x l).
Proof.
  intros Hax Hal. destruct l as [|y l]; simpl.
  - now constructor.
  - destruct (goes_before reverse (key x) (key y)); constructor.
    + exact Hax.
    + now inversion Hal.
Qed.

Lemma insert_Sorted (x : A) (l : list A) :
  Sorted (key_order key reverse) l ->
  Sorted (key_order key reverse) (insert key reverse x l).
Proof.
  induction 1 as [|y l Hl IH Hy]; simpl.
  - repeat constructor.
  - destruct (goes_before reverse (key x) (key y)) eqn:E.
    + constructor; [now constructor|].
      constructor. now apply goes_before_true.
    + constructor; [exact IH|].
      apply insert_HdRel; [|exact Hy].
      now apply goes_before_false.
Qed.

Lemma sorted_Sorted (l : list A) :
  Sorted (key_order key reverse) (sorted key reverse l).
Proof.
  induction l as [|x l IH]; simpl.
  - constructor.
  - now apply insert_Sorted.
Qed.

Lemma map_key_insert (x : A) (l : list A) :
  map key (insert key reverse x l)
  = insert (fun k => k) reverse (key x) (map key l).
Proof.
  induction l as [|y l IH]; simpl.
  - reflexivity.
  - destruct (goes_before reverse (key x) (key y)); simpl; congruence.
Qed.

Lemma map_key_sorted (l : list A) :
  map key (sorted key reverse l) = sorted (fun k => k) reverse (map key l).
Proof.
  induction l as [|x l IH]; simpl.
  - reflexivity.
  - now rewrite map_key_insert, IH.
Qed.
(** The sort is stable: the entries with a given key keep the order they
    had in the input. *)
Lemma filter_key_insert (k : Z) (x : A) (l : list A) :
  filter (fun a => key a =? k) (insert key reverse x l)
  = filter (fun a => key a =? k) (x :: l).
Proof.
  induction l as [|y l IH]; [reflexivity|].
  cbn [insert]. destruct (goes_before reverse (key x) (key y)) eqn:E.
  - reflexivity.
  - cbn [filter] in *. rewrite IH.
    destruct (Z.eqb_spec (key x) k) as [Hx|Hx]; [|reflexivity].
    destruct (Z.eqb_spec (key y) k) as [Hy|Hy]; [|reflexivity].
    exfalso. rewrite Hx, Hy in E. revert E. unfold goes_before.
    destruct reverse; rewrite Z.leb_refl; discriminate.
Qed.

Lemma sorted_stable (k : Z) (l : list A) :
  filter (fun a => key a =? k) (sorted key reverse l)
  = filter (fun a => key a =? k) l.
Proof.
  induction l as [|x l IH]; [reflexivity|].
  cbn [sorted fold_right]. rewrite filter_key_insert.
  cbn [filter]. fold (sorted key reverse l). now rewrite IH.
Qed.
End SortedFacts.

Lemma Sorted_adjacent {A : Type} (R : A -> A -> Prop) (l : list A) :
  Sorted R l ->
  forall i a b,
    nth_error l i = Some a -> nth_error l (S i) = Some b -> R a b.
Proof.
  induction 1 as [|x l Hl IH Hx]; intros i a b Ha Hb.
  - destruct i; discriminate.
  - destruct i as [|i]; simpl in Ha, Hb.
    + injection Ha as <-. destruct l as [|y l]; [discriminate|].
      simpl in Hb. injection Hb as <-. now inversion Hx.
    + eapply IH; eassumption.
Qed.

(** Two lists of keys in the same order with the same members are the
    same list. *)
Lemma in_order_unique (reverse : bool) (l1 l2 : list Z) :
  StronglySorted (in_order reverse) l1 ->
  StronglySorted (in_order reverse) l2 ->
  Permutation l1 l2 -> l1 = l2.
Proof.
  intros H1; revert l2.
  induction H1 as [|a l1 Hl1 IH Ha]; intros l2 H2 HP.
  - now apply Permutation_nil in HP.
  - destruct H2 as [|b l2 Hl2 Hb].
    + symmetry in HP. now apply Permutation_nil in HP.
    + assert (a = b) as ->.
      { assert (In a (b :: l2)) as Hin1
          by (eapply Permutation_in; [exact HP | now left]).
        assert (In b (a :: l1)) as Hin2
          by (eapply Permutation_in; [symmetry; exact HP | now left]).
        destruct Hin1 as [E|Hin1]; [now symmetry|].
        destruct Hin2 as [E|Hin2]; [exact E|].
        rewrite Forall_forall in Ha, Hb.
        apply (in_order_antisym reverse); auto. }
      f_equal. apply IH; [exact Hl2|].
      now apply Permutation_cons_inv in HP.
Qed.

Lemma sorted_keys_StronglySorted (reverse : bool) (l : list Z) :
  StronglySorted (in_order reverse) (sorted (fun k => k) reverse l).
Proof.
  apply Sorted_StronglySorted.
  - intros a b c. apply in_order_trans.
  - apply (sorted_Sorted (fun k : Z => k)).
Qed.

Lemma count_nonneg (x : string) (data : list string) : 0 <= count x data.
Proof.
  induction data as [|y t IH]; simpl.
  - lia.
  - destruct (String.eqb y x); lia.
Qed.

Lemma count_In (x : string) (data : list string) :
  In x data -> 1 <= count x data.
Proof.
  induction data as [|y t IH]; simpl; intros H.
  - contradiction.
  - pose proof (count_nonneg x t). destruct (String.eqb_spec y x).
    + lia.
    + destruct H as [H|H]; [contradiction|]. specialize (IH H). lia.
Qed.

(** In a list without duplicates exactly one entry equals a member. *)
Lemma sum_indicator_NoDup (y : string) (categories : list string) :
  NoDup categories -> In y categories ->
  sum (map (fun c => if String.eqb y c then 1 else 0) categories) = 1.
Proof.
  induction 1 as [|c l Hc Hl IH]; intros Hin.
  - contradiction.
  - simpl. rewrite sum_cons. destruct (String.eqb_spec y c) as [->|Hne].
    + assert (sum (map (fun c0 => if String.eqb c c0 then 1 else 0) l) = 0)
        as ->; [|lia].
      clear IH Hl Hin. induction l as [|d l IHl]; [reflexivity|].
      simpl. rewrite sum_cons. destruct (String.eqb_spec c d) as [->|_].
      * exfalso. apply Hc. now left.
      * rewrite IHl; [lia|]. intros H. apply Hc. now right.
    + destruct Hin as [E|Hin]; [congruence|]. rewrite IH by exact Hin. lia.
Qed.

Lemma sum_count_listing (categories data : list string) :
  NoDup categories ->
  (forall x, In x data -> In x categories) ->
  sum (map (fun c => count c data) categories) = len data.
Proof.
  intros Hnd. unfold len. induction data as [|y t IH]; intros Hin.
  - simpl. clear Hnd Hin. induction categories as [|c l IHl]; [reflexivity|].
    simpl. rewrite sum_cons, IHl. reflexivity.
  - cbn [count].
    rewrite (sum_map_add (fun c => if String.eqb y c then 1 else 0)
                         (fun c => count c t)).
    rewrite sum_indicator_NoDup by (auto; apply Hin; now left).
    rewrite IH by (intros x Hx; apply Hin; now right).
    cbn [List.length]. lia.
Qed.

Lemma group_data_Permutation (categories data : list string) (reverse : bool) :
  Permutation (group_data categories data reverse)
              (map (fun category => (category, count category data)) categories).
Proof. apply sorted_Permutation. Qed.

Lemma names_group_data (categories data : list string) (reverse : bool) :
  Permutation (names (group_data categories data reverse)) categories.
Proof.
  unfold names. rewrite group_data_Permutation, map_map. simpl.
  now rewrite map_id.
Qed.

Lemma counts_group_data (categories data : list string) (reverse : bool) :
  counts (group_data categories data reverse)
  = sorted (fun k => k) reverse (map (fun c => count c data) categories).
Proof.
  unfold counts, group_data. rewrite map_key_sorted, map_map. reflexivity.
Qed.

Lemma sum_counts_group_data (data categories : list string) (reverse : bool) :
  set_listing data categories ->
  sum (counts (group_data categories data reverse)) = len data.
Proof.
  intros [Hnd Hin]. unfold counts.
  rewrite (sum_Permutation _ _
             (Permutation_map snd (group_data_Permutation _ _ _))).
  rewrite map_map. simpl. apply sum_count_listing; [exact Hnd|].
  intros x. apply Hin.
Qed.

Lemma set_listing_listing_of (data : list string) :
  set_listing data (listing_of data).
Proof.
  split.
  - apply NoDup_nodup.
  - intros x. apply nodup_In.
Qed.

Lemma set_listing_Permutation (data c1 c2 : list string) :
  set_listing data c1 -> set_listing data c2 -> Permutation c1 c2.
Proof.
  intros [N1 I1] [N2 I2]. apply NoDup_Permutation; auto.
  intros x. now rewrite I1, I2.
Qed.

Lemma count_NoDup_In (x : string) (l : list string) :
  NoDup l -> In x l -> count x l = 1.
Proof.
  induction 1 as [|y l Hy Hl IH]; intros Hin.
  - contradiction.
  - simpl. destruct (String.eqb_spec y x) as [->|Hne].
    + assert (count x l = 0) as ->; [|lia].
      clear IH Hl Hin. induction l as [|z l IHl]; [reflexivity|].
      simpl. destruct (String.eqb_spec z x) as [->|_].
      * exfalso. apply Hy. now left.
      * apply IHl. intros H. apply Hy. now right.
    + destruct Hin as [E|Hin]; [congruence|]. now rewrite IH.
Qed.

Lemma set_listing_ab :
  set_listing ["b"; "a"; "b"]%string ["a"; "b"]%string.
Proof.
  split.
  - repeat constructor; simpl; intuition discriminate.
  - intros x; simpl; intuition.
Qed.

Lemma set_listing_ba :
  set_listing ["b"; "a"; "b"]%string ["b"; "a"]%string.
Proof.
  split.
  - repeat constructor; simpl; intuition discriminate.
  - intros x; simpl; intuition.
Qed.

(** C1.  Whatever order the set of names is listed in, the counts that
    [group_data] returns add up to the length of the input, the names it
    returns are exactly the names that occur in the input, and each of
    them is returned once. *)
Theorem group_data_counts_and_names
    (data categories : list string) (reverse : bool) :
  set_listing data categories ->
  sum (counts (group_data categories data reverse)) = len data
  /\ (forall x, In x (names (group_data categories data reverse)) <-> In x data)
  /\ (forall x, In x data ->
        count x (names (group_data categories data reverse)) = 1).
Proof.
  intros Hset.
  pose proof (names_group_data categories data reverse) as Hnames.
  split; [|split].
  - now apply sum_counts_group_data.
  - destruct Hset as [_ Hin]. intros x. rewrite <- Hin. split; apply Permutation_in.
    + exact Hnames.
    + now symmetry.
  - destruct Hset as [Hnd Hin]. intros x Hx. apply count_NoDup_In.
    + eapply Permutation_NoDup; [symmetry; exact Hnames | exact Hnd].
    + eapply Permutation_in; [symmetry; exact Hnames|]. now apply Hin.
Qed.

Lemma group_data_counts_and_names_witness :
  sum (counts (group_data ["a"; "b"] ["b"; "a"; "b"] true))%string
  = len ["b"; "a"; "b"]%string.
Proof.
  exact (proj1 (group_data_counts_and_names
                  ["b"; "a"; "b"]%string ["a"; "b"]%string true
                  set_listing_ab)).
Defined.

(** C3.  The output of [group_data] is ordered by count: with
    [reverse=True] (the default) no entry has a smaller count than the
    entry after it, with [reverse=False] no entry has a larger count than
    the entry after it. *)
Theorem group_data_sorted
    (categories data : list string) (reverse : bool)
    (i : nat) (a b : string * Z) :
  nth_error (group_data categories data reverse) i = Some a ->
  nth_error (group_data categories data reverse) (S i) = Some b ->
  if reverse then snd a >= snd b else snd a <= snd b.
Proof.
  intros Ha Hb.
  pose proof (Sorted_adjacent _ _
                (sorted_Sorted snd reverse
                   (map (fun c => (c, count c data)) categories))
                i a b Ha Hb) as H.
  unfold key_order, in_order in H. destruct reverse; lia.
Qed.

Lemma group_data_sorted_witness :
  group_data ["a"; "b"]%string ["b"; "a"; "b"]%string true
  = [("b", 2); ("a", 1)]%string
  /\ snd ("b"%string, 2) >= snd ("a"%string, 1).
Proof.
  split; [reflexivity|].
  exact (group_data_sorted ["a"; "b"]%string ["b"; "a"; "b"]%string true
           0%nat ("b"%string, 2) ("a"%string, 1) eq_refl eq_refl).
Defined.

(** C8.  Two runs of [group_data] on the same input with the same flag,
    each with its own listing of the set of names, return the same
    (name, count) pairs as a multiset and the same sequence of counts:
    the outputs can differ only in the order of entries with equal
    counts. *)
Theorem group_data_idempotent
    (data categories1 categories2 : list string) (reverse : bool) :
  set_listing data categories1 ->
  set_listing data categories2 ->
  Permutation (group_data categories1 data reverse)
              (group_data categories2 data reverse)
  /\ counts (group_data categories1 data reverse)
     = counts (group_data categories2 data reverse).
Proof.
  intros H1 H2.
  pose proof (set_listing_Permutation _ _ _ H1 H2) as HP.
  assert (Permutation (group_data categories1 data reverse)
                      (group_data categories2 data reverse)) as Hout.
  { rewrite !group_data_Permutation. now apply Permutation_map. }
  split; [exact Hout|].
  apply (in_order_unique reverse).
  - rewrite counts_group_data. apply sorted_keys_StronglySorted.
  - rewrite counts_group_data. apply sorted_keys_StronglySorted.
  - unfold counts. now apply Permutation_map.
Qed.

Lemma group_data_idempotent_witness :
  Permutation (group_data ["a"; "b"] ["b"; "a"; "b"] true)%string
              (group_data ["b"; "a"] ["b"; "a"; "b"] true)%string
  /\ counts (group_data ["a"; "b"] ["b"; "a"; "b"] true)%string
     = counts (group_data ["b"; "a"] ["b"; "a"; "b"] true)%string.
Proof.
  exact (group_data_idempotent _ _ _ true set_listing_ab set_listing_ba).
Defined.

(** C9.  Every count in the output of [group_data] is at least 1: an
    entry is made only for a name that occurs in the input. *)
Theorem group_data_counts_positive
    (data categories : list string) (reverse : bool) :
  set_listing data categories ->
  Forall (fun entry => 1 <= snd entry) (group_data categories data reverse).
Proof.
  intros [_ Hin]. apply Forall_forall. intros entry Hentry.
  apply (Permutation_in _ (group_data_Permutation _ _ _)) in Hentry.
  apply in_map_iff in Hentry. destruct Hentry as [c [<- Hc]]. simpl.
  apply count_In. now apply Hin.
Qed.

Lemma group_data_counts_positive_witness :
  Forall (fun entry => 1 <= snd entry)
         (group_data ["a"; "b"] ["b"; "a"; "b"] true)%string.
Proof.
  exact (group_data_counts_positive _ _ true set_listing_ab).
Defined.

(** * The Sampler *)

(** ** The bisection *)

Lemma midpoint_between (lo hi : nat) :
  (lo < hi)%nat -> (lo <= (lo + hi) / 2 < hi)%nat.
Proof.
  intros H. split.
  - apply Nat.div_le_lower_bound; lia.
  - apply Nat.Div0.div_lt_upper_bound; lia.
Qed.

Lemma bisect_loop_bounds (fuel : nat) (a : list Q) (x : Q) (lo hi : nat) :
  (lo <= hi)%nat ->
  (lo <= bisect_loop fuel a x lo hi <= hi)%nat.
Proof.
  revert lo hi. induction fuel as [|fuel IH]; intros lo hi Hle; cbn [bisect_loop].
  - lia.
  - destruct (Nat.ltb_spec lo hi) as [Hlt|_]; [|lia].
    pose proof (midpoint_between lo hi Hlt) as Hmid.
    set (mid := ((lo + hi) / 2)%nat) in *. clearbody mid.
    destruct (Qltb x (nth mid a 0%Q)).
    + specialize (IH lo mid). lia.
    + specialize (IH (mid + 1)%nat hi). lia.
Qed.

(** The loop has ended when the fuel is spent: more fuel changes nothing. *)
Lemma bisect_loop_fuel (fuel : nat) (a : list Q) (x : Q) (lo hi : nat) :
  (hi - lo <= fuel)%nat ->
  bisect_loop fuel a x lo hi = bisect a x lo hi.
Proof.
  unfold bisect.
  assert (forall f1 f2 lo hi, (hi - lo <= f1)%nat -> (hi - lo <= f2)%nat ->
            bisect_loop f1 a x lo hi = bisect_loop f2 a x lo hi) as H.
  { clear. induction f1 as [|f1 IH]; intros f2 lo hi H1 H2.
    - destruct f2; cbn [bisect_loop]; [reflexivity|].
      destruct (Nat.ltb_spec lo hi); [lia | reflexivity].
    - destruct f2; cbn [bisect_loop].
      + destruct (Nat.ltb_spec lo hi); [lia | reflexivity].
      + destruct (Nat.ltb_spec lo hi) as [Hlt|_]; [|reflexivity].
        pose proof (midpoint_between lo hi Hlt) as Hmid.
        set (mid := ((lo + hi) / 2)%nat) in *. clearbody mid.
        destruct (Qltb x (nth mid a 0%Q)); apply IH; lia. }
  intros Hf. apply H; lia.
Qed.

Lemma bisect_bounds (a : list Q) (x : Q) (lo hi : nat) :
  (lo <= hi)%nat -> (lo <= bisect a x lo hi <= hi)%nat.
Proof. apply bisect_loop_bounds. Qed.

(** ** The draws *)

Lemma draws_Ok (rand : nat -> Q) (population : list string)
    (cum_weights : list Q) (total : Q) (hi k : nat) (g : rng) :
  (hi < List.length population)%nat ->
  exists out,
    draws rand population cum_weights total hi k g = (Ok out, (g + k)%nat)
    /\ List.length out = k
    /\ Forall (fun c => In c population) out.
Proof.
  intros Hhi. revert g. induction k as [|k IH]; intros g.
  - exists []. simpl. unfold ret. rewrite Nat.add_0_r. auto.
  - cbn [draws]. unfold bindM at 1. unfold random.
    unfold bindM at 1. unfold lift.
    pose proof (bisect_bounds cum_weights (rand g * total)%Q 0 hi
                  (Nat.le_0_l hi)) as Hb.
    destruct (nth_error population
                (bisect cum_weights (rand g * total)%Q 0 hi)) as [c|] eqn:E.
    + destruct (IH (S g)) as [out [Hout [Hlen Hall]]].
      exists (c :: out). unfold bindM. rewrite Hout. unfold ret.
      repeat split.
      * f_equal. lia.
      * simpl. now rewrite Hlen.
      * constructor; [|exact Hall]. eapply nth_error_In; exact E.
    + exfalso. apply nth_error_None in E. lia.
Qed.

(** ** The weights *)

Lemma length_accumulate_from (acc : Q) (l : list Q) :
  List.length (accumulate_from acc l) = List.length l.
Proof.
  revert acc; induction l as [|w l IH]; intros acc; simpl; [|rewrite IH];
    reflexivity.
Qed.

Lemma length_accumulate (l : list Q) :
  List.length (accumulate l) = List.length l.
Proof.
  destruct l; simpl; [|rewrite length_accumulate_from]; reflexivity.
Qed.

Lemma last_item_accumulate_from (l : list Q) (acc : Q) :
  exists c, last_item (acc :: accumulate_from acc l) = Ok c
            /\ (c == acc + qsum l)%Q.
Proof.
  revert acc; induction l as [|w l IH]; intros acc.
  - exists acc. split; [reflexivity|]. simpl. ring.
  - destruct (IH (acc + w)%Q) as [c [Hc Hq]]. exists c. split.
    + rewrite <- Hc. reflexivity.
    + rewrite Hq. simpl. ring.
Qed.

Lemma last_item_accumulate (w : Q) (l : list Q) :
  exists c, last_item (accumulate (w :: l)) = Ok c
            /\ (c == qsum (w :: l))%Q.
Proof. apply last_item_accumulate_from. Qed.

Lemma qsum_normalised (total : Z) (categories : list (string * Z)) :
  (qsum (map (fun c => inject_Z (snd c) / inject_Z total) categories)
   == inject_Z (sum (map snd categories)) / inject_Z total)%Q.
Proof.
  induction categories as [|c l IH]; simpl.
  - rewrite sum_nil. unfold Qdiv. ring.
  - rewrite sum_cons, IH, inject_Z_plus. unfold Qdiv. ring.
Qed.

Lemma inject_Z_nonzero (z : Z) : z <> 0 -> ~ (inject_Z z == 0)%Q.
Proof.
  intros Hz H. apply Hz. unfold Qeq in H. simpl in H. lia.
Qed.

(** ** Normalisation *)

Lemma normalise_Ok (total : Z) (categories : list (string * Z)) :
  total <> 0 ->
  comprehension (fun c => p <- truediv (snd c) total ;; Ok (fst c, p))
                categories
  = Ok (map (fun c => (fst c, (inject_Z (snd c) / inject_Z total)%Q))
            categories).
Proof.
  intros Ht. induction categories as [|c l IH]; simpl.
  - reflexivity.
  - rewrite IH. unfold truediv.
    destruct (Z.eqb_spec total 0); [contradiction | reflexivity].
Qed.

Lemma normalise_zero (c : string * Z) (l : list (string * Z)) :
  comprehension (fun c => p <- truediv (snd c) 0 ;; Ok (fst c, p)) (c :: l)
  = Raise ZeroDivisionError.
Proof. reflexivity. Qed.

(** ** The three outcomes of [generate_synthetic_data] *)

Lemma generate_nonzero_total (rand : nat -> Q)
    (categories : list (string * Z)) (num_samples : Z) (g : rng) :
  sum (map snd categories) <> 0 ->
  exists out,
    generate_synthetic_data rand categories num_samples g
    = (Ok out, (g + Z.to_nat num_samples)%nat)
    /\ List.length out = Z.to_nat num_samples
    /\ Forall (fun name => In name (map fst categories)) out.
Proof.
  intros Ht. unfold generate_synthetic_data.
  rewrite normalise_Ok by exact Ht. unfold bindM at 1. unfold lift at 1.
  set (total := sum (map snd categories)) in *.
  set (prob := fun x : string * Z => (inject_Z (snd x) / inject_Z total)%Q).
  rewrite !map_map. cbn [fst snd]. fold prob.
  unfold choices. rewrite length_accumulate, !length_map, Nat.eqb_refl.
  cbn [negb].
  assert (exists last,
            last_item (accumulate (map prob categories)) = Ok last
            /\ (last + 0 == 1)%Q) as [last [Hlast Hone]].
  { destruct categories as [|c l] eqn:E; [exfalso; now apply Ht|].
    destruct (last_item_accumulate (prob c) (map prob l))
      as [last [Hlast Hq]].
    exists last. split; [exact Hlast|].
    rewrite Hq. change (prob c :: map prob l) with (map prob (c :: l)).
    unfold prob. rewrite qsum_normalised. fold total.
    field. now apply inject_Z_nonzero. }
  rewrite Hlast. unfold bindM, lift.
  assert (Qle_bool (last + 0) 0 = false) as ->.
  { destruct (Qle_bool (last + 0) 0) eqn:E; [|reflexivity].
    apply Qle_bool_iff in E. rewrite Hone in E.
    exfalso. apply (Qle_not_lt _ _ E). reflexivity. }
  destruct (draws_Ok rand (map (fun x => fst x) categories)
              (accumulate (map prob categories))
              (last + 0)%Q (List.length categories - 1)
              (Z.to_nat num_samples) g) as [out [Hout [Hlen Hall]]].
  { rewrite length_map. destruct categories; [exfalso; now apply Ht|].
    simpl. lia. }
  exists out. auto.
Qed.

Lemma generate_zero_total (rand : nat -> Q)
    (categories : list (string * Z)) (num_samples : Z) (g : rng) :
  categories <> [] ->
  sum (map snd categories) = 0 ->
  generate_synthetic_data rand categories num_samples g
  = (Raise ZeroDivisionError, g).
Proof.
  intros Hne Ht. unfold generate_synthetic_data. rewrite Ht.
  destruct categories as [|c l]; [congruence|].
  rewrite normalise_zero. reflexivity.
Qed.

Lemma generate_empty (rand : nat -> Q) (num_samples : Z) (g : rng) :
  generate_synthetic_data rand [] num_samples g = (Raise IndexError, g).
Proof. reflexivity. Qed.

(** C2.  For weights that are all positive, with a total that is not
    zero, and a sample count [N >= 0], [generate_synthetic_data] returns
    a list of exactly [N] names, each of them a name of the weight list;
    it makes [N] draws. *)
Theorem generate_synthetic_data_length_and_names (rand : nat -> Q)
    (categories : list (string * Z)) (num_samples : Z) (g : rng) :
  Forall (fun c => 0 < snd c) categories ->
  sum (map snd categories) <> 0 ->
  0 <= num_samples ->
  exists out,
    generate_synthetic_data rand categories num_samples g
    = (Ok out, (g + Z.to_nat num_samples)%nat)
    /\ len out = num_samples
    /\ Forall (fun name => In name (map fst categories)) out.
Proof.
  intros _ Ht HN.
  destruct (generate_nonzero_total rand categories num_samples g Ht)
    as [out [Hout [Hlen Hall]]].
  exists out. repeat split; try assumption.
  unfold len. rewrite Hlen. lia.
Qed.

Lemma generate_synthetic_data_length_and_names_witness :
  exists out,
    generate_synthetic_data rand_demo
      [("A", 1); ("B", 5); ("C", 10)]%string 10 0%nat
    = (Ok out, (0 + Z.to_nat 10)%nat)
    /\ len out = 10
    /\ Forall (fun name => In name (map fst [("A", 1); ("B", 5); ("C", 10)]%string))
              out.
Proof.
  apply generate_synthetic_data_length_and_names.
  - repeat constructor.
  - discriminate.
  - lia.
Defined.

(** C4, as the code has it.  The Sampler validates nothing and has no
    error of its own for weights.  It ends with the division-by-zero
    error of the language, before any draw, exactly when the weight list
    is not empty and its weights add up to zero; a negative weight alone
    does not make it fail that way. *)
Theorem generate_synthetic_data_zero_division (rand : nat -> Q)
    (categories : list (string * Z)) (num_samples : Z) (g : rng) :
  generate_synthetic_data rand categories num_samples g
  = (Raise ZeroDivisionError, g)
  <-> categories <> [] /\ sum (map snd categories) = 0.
Proof.
  split.
  - intros H. destruct categories as [|c l].
    + rewrite generate_empty in H. discriminate H.
    + split; [discriminate|].
      destruct (Z.eq_dec (sum (map snd (c :: l))) 0) as [E|E]; [exact E|].
      destruct (generate_nonzero_total rand (c :: l) num_samples g E)
        as [out [Hout _]].
      rewrite Hout in H. discriminate H.
  - intros [Hne Ht]. now apply generate_zero_total.
Qed.

(** A negative weight is accepted: with weights -1 and 3 the Sampler
    returns the empty list for [N = 0] and three names for [N = 3]. *)
Lemma negative_weight_is_sampled :
  generate_synthetic_data rand_demo [("A", -1); ("B", 3)]%string 0 0%nat
  = (Ok [], 0%nat)
  /\ generate_synthetic_data rand_demo [("A", -1); ("B", 3)]%string 3 0%nat
     = (Ok ["B"; "B"; "B"]%string, 3%nat).
Proof. split; reflexivity. Qed.

Lemma set_listing_nil : set_listing [] [].
Proof. split; [constructor | intros x; reflexivity]. Qed.

(** C10, as the code has it.  When the weights add up to zero the Sampler
    fails before any draw, whatever the sample count: with the
    division-by-zero error of the normalisation when the list is not
    empty, and with the [IndexError] of [random.choices] when it is
    empty, for then nothing is divided. *)
Theorem generate_synthetic_data_degenerate (rand : nat -> Q)
    (categories : list (string * Z)) (num_samples : Z) (g : rng) :
  sum (map snd categories) = 0 ->
  generate_synthetic_data rand categories num_samples g
  = (Raise match categories with
           | [] => IndexError
           | _ :: _ => ZeroDivisionError
           end, g).
Proof.
  intros Ht. destruct categories as [|c l].
  - apply generate_empty.
  - apply generate_zero_total; [discriminate | exact Ht].
Qed.

Lemma generate_synthetic_data_degenerate_witness :
  generate_synthetic_data rand_demo [("A", 2); ("B", -2)]%string 0 0%nat
  = (Raise ZeroDivisionError, 0%nat).
Proof.
  exact (generate_synthetic_data_degenerate rand_demo
           [("A", 2); ("B", -2)]%string 0 0%nat eq_refl).
Defined.

(** On the empty category list no division is made: the error is the
    [IndexError] of [cum_weights[-1]]. *)
Lemma empty_categories_is_not_zero_division :
  generate_synthetic_data rand_demo [] 0 0%nat = (Raise IndexError, 0%nat)
  /\ generate_synthetic_data rand_demo [] 5 0%nat = (Raise IndexError, 0%nat).
Proof. split; reflexivity. Qed.

(** * The Renderer *)

(** ** The loop of the running sum *)

Lemma cumsum_loop (t : list Z) (cumsum : list Z) (s : Z) (k : nat) :
  (k = 0%nat -> s = 0) ->
  (k <> 0%nat -> last_item cumsum = Ok s) ->
  fold_left cumsum_step (combine (seq k (List.length t)) t) (Ok cumsum)
  = Ok (cumsum ++ scan s t).
Proof.
  revert cumsum s k. induction t as [|c t IH]; intros cumsum s k H0 Hlast.
  - simpl. now rewrite app_nil_r.
  - cbn [List.length seq combine fold_left scan].
    assert (cumsum_step (Ok cumsum) (k, c) = Ok (cumsum ++ [s + c])) as ->.
    { unfold cumsum_step. cbn [bind]. destruct (Nat.eqb_spec k 0) as [E|E].
      - rewrite (H0 E). reflexivity.
      - rewrite (Hlast E). cbn [bind]. now rewrite Z.add_comm. }
    rewrite (IH (cumsum ++ [s + c]) (s + c) (S k)).
    + now rewrite <- app_assoc.
    + discriminate.
    + intros _. apply last_item_snoc.
Qed.

Lemma running_sum_scan (counts : list Z) :
  running_sum counts = Ok (scan 0 counts).
Proof.
  unfold running_sum, enumerate.
  rewrite (cumsum_loop counts [] 0 0); [reflexivity | reflexivity | congruence].
Qed.

Lemma length_scan (acc : Z) (l : list Z) :
  List.length (scan acc l) = List.length l.
Proof.
  revert acc; induction l as [|c t IH]; intros acc; simpl; [|rewrite IH];
    reflexivity.
Qed.

Lemma nth_error_scan (l : list Z) (acc : Z) (i : nat) :
  (i < List.length l)%nat ->
  nth_error (scan acc l) i = Some (acc + sum (firstn (S i) l)).
Proof.
  revert acc i. induction l as [|c t IH]; intros acc i Hi; simpl in Hi.
  - lia.
  - destruct i as [|i].
    + simpl. rewrite sum_cons, sum_nil. f_equal. lia.
    + cbn [scan nth_error]. rewrite IH by lia.
      change (firstn (S (S i)) (c :: t)) with (c :: firstn (S i) t).
      rewrite sum_cons. f_equal. lia.
Qed.

Lemma last_item_scan (l : list Z) (acc : Z) :
  l <> [] -> last_item (scan acc l) = Ok (acc + sum l).
Proof.
  revert acc. induction l as [|c t IH]; intros acc Hne; [congruence|].
  destruct t as [|d t].
  - simpl. rewrite sum_cons, sum_nil. f_equal. lia.
  - change (scan acc (c :: d :: t))
      with ((acc + c) :: scan (acc + c) (d :: t)).
    rewrite last_item_cons by discriminate.
    rewrite IH by discriminate. rewrite (sum_cons c). f_equal. lia.
Qed.

(** ** The percentages *)

Lemma percent_comprehension_Ok (total : Z) (cumsum : list Z) :
  total <> 0 ->
  comprehension (percent total) cumsum
  = Ok (map (fun c => (inject_Z c / inject_Z total * 100)%Q) cumsum).
Proof.
  intros Ht. induction cumsum as [|c l IH]; simpl.
  - reflexivity.
  - rewrite IH. unfold percent, truediv.
    destruct (Z.eqb_spec total 0); [contradiction | reflexivity].
Qed.

Lemma last_item_map {A B : Type} (f : A -> B) (l : list A) (a : A) :
  last_item l = Ok a -> last_item (map f l) = Ok (f a).
Proof.
  induction l as [|b l IH]; [discriminate|].
  destruct l as [|c l].
  - simpl. intros H. injection H as ->. reflexivity.
  - intros H. apply IH in H. exact H.
Qed.

Lemma pareto_chart_Ok (data : list (string * Z)) :
  sum (map snd data) <> 0 ->
  pareto_chart data
  = Ok {| bar_x := map fst data;
          bar_height := map snd data;
          line_x := map fst data;
          line_y := map (fun c => (inject_Z c / inject_Z (sum (map snd data))
                                   * 100)%Q)
                        (scan 0 (map snd data));
          ylim := (0, 110);
          hline := (80, 0, len (map fst data)) |}.
Proof.
  intros Ht. unfold pareto_chart.
  rewrite running_sum_scan. cbn [bind].
  rewrite percent_comprehension_Ok by exact Ht. reflexivity.
Qed.

Lemma last_percentage (data : list (string * Z)) :
  data <> [] ->
  last_item (map (fun c => (inject_Z c / inject_Z (sum (map snd data))
                            * 100)%Q)
                 (scan 0 (map snd data)))
  = Ok (inject_Z (0 + sum (map snd data)) / inject_Z (sum (map snd data))
        * 100)%Q.
Proof.
  intros Hne.
  apply (last_item_map
           (fun c => (inject_Z c / inject_Z (sum (map snd data)) * 100)%Q)).
  apply last_item_scan. destruct data; [congruence | discriminate].
Qed.

Lemma percent_of_total (total : Z) :
  total <> 0 ->
  (inject_Z (0 + total) / inject_Z total * 100 == 100)%Q.
Proof.
  intros Ht. rewrite Z.add_0_l. field. now apply inject_Z_nonzero.
Qed.

(** A sequence of one entry with count 0 is not empty, and the series is
    not computed for it: the division by the total raises. *)
Lemma zero_total_has_no_percentage :
  pareto_chart [("A", 0)]%string = Raise ZeroDivisionError.
Proof. reflexivity. Qed.

(** ** The Aggregator's output in the Renderer *)

(** X17.  What [main] does with a sample that is not empty: the grouped counts
    have the total [len(data)], which is not zero, so the chart is drawn
    and its line ends at 100. *)
Lemma pareto_chart_of_group_data
    (data categories : list string) (reverse : bool) :
  set_listing data categories ->
  data <> [] ->
  exists fig p,
    pareto_chart (group_data categories data reverse) = Ok fig
    /\ last_item (line_y fig) = Ok p
    /\ (p == 100)%Q.
Proof.
  intros Hset Hne.
  pose proof (sum_counts_group_data data categories reverse Hset) as Hsum.
  unfold counts in Hsum.
  assert (sum (map snd (group_data categories data reverse)) <> 0) as Ht.
  { rewrite Hsum. unfold len. destruct data; [congruence | discriminate]. }
  eexists. eexists. split; [now apply pareto_chart_Ok|].
  cbn [line_y]. split.
  - apply last_percentage. intros E. apply Ht. now rewrite E.
  - now apply percent_of_total.
Qed.

(** ** The last percentage in binary64 *)

Lemma div_eucl_div_mod (a b : Z) : Z.div_eucl a b = (a / b, a mod b).
Proof.
  unfold Z.div, Z.modulo. now destruct (Z.div_eucl a b).
Qed.

Lemma SFdiv_core_binary_self (p : positive) :
  SFdiv_core_binary 53 1024 (Zpos p) 0 (Zpos p) 0 = (2 ^ 53, -53, loc_Exact).
Proof.
  unfold SFdiv_core_binary.
  set (d := Zdigits2 (Z.pos p)).
  replace (d + 0 - (d + 0)) with 0 by lia.
  change (Z.min (fexp 53 1024 0) (0 - 0)) with (-53).
  change (0 - 0 - -53) with 53.
  cbv beta iota zeta.
  rewrite Z.shiftl_mul_pow2 by lia.
  rewrite div_eucl_div_mod, (Z.mul_comm (Z.pos p)), Z.div_mul, Z.mod_mul
    by discriminate.
  unfold new_location. now destruct (Z.even (Z.pos p)).
Qed.

(** An int divided by itself is 1.0, whatever its size. *)
Lemma truediv64_self (total : Z) :
  total <> 0 -> truediv64 total total = Ok (float_of_int 1).
Proof.
  intros Ht. unfold truediv64.
  destruct (Z.eqb_spec total 0) as [E|_]; [contradiction|].
  destruct total as [|p|p]; [contradiction| |];
    cbn [int_mantissa]; unfold SFdiv; rewrite SFdiv_core_binary_self;
    reflexivity.
Qed.

(** X18.  The last running sum is the total, and the total divided by
    itself and multiplied by 100 is 100.0 in binary64 with no rounding
    error. *)
Lemma final_cumulative_percentage_binary64 (data : list (string * Z)) :
  data <> [] ->
  sum (map snd data) <> 0 ->
  exists cumsum c,
    running_sum (map snd data) = Ok cumsum
    /\ last_item cumsum = Ok c
    /\ percent64 (sum (map snd data)) c = Ok (float_of_int 100).
Proof.
  intros Hne Ht. eexists. eexists.
  split; [apply running_sum_scan|]. split.
  - apply last_item_scan. destruct data; [congruence | discriminate].
  - rewrite Z.add_0_l. unfold percent64.
    rewrite truediv64_self by exact Ht. reflexivity.
Qed.

Example float_of_int_100 :
  float_of_int 100 = S754_finite false 7036874417766400 (-46).
Proof. reflexivity. Qed.

Example truediv64_third :
  truediv64 1 3 = Ok (S754_finite false 6004799503160661 (-54)).
Proof. reflexivity. Qed.

(** * More on the Aggregator *)

Lemma count_Permutation (x : string) (data1 data2 : list string) :
  Permutation data1 data2 -> count x data1 = count x data2.
Proof.
  induction 1 as [|y l1 l2 _ IH|y z l|l1 l2 l3 _ IH1 _ IH2]; simpl.
  - reflexivity.
  - now rewrite IH.
  - lia.
  - now rewrite IH1.
Qed.

Lemma StronglySorted_app {A : Type} (R : A -> A -> Prop) (l1 l2 : list A) :
  StronglySorted R l1 -> StronglySorted R l2 ->
  (forall x y, In x l1 -> In y l2 -> R x y) ->
  StronglySorted R (l1 ++ l2).
Proof.
  induction 1 as [|a l1 Hl1 IH Ha]; intros H2 Hx; simpl.
  - exact H2.
  - constructor.
    + apply IH; [exact H2|]. intros x y Hin. apply Hx. now right.
    + apply Forall_app. split; [exact Ha|].
      apply Forall_forall. intros y Hy. apply Hx; [now left | exact Hy].
Qed.

Lemma StronglySorted_rev (l : list Z) :
  StronglySorted (in_order true) l ->
  StronglySorted (in_order false) (rev l).
Proof.
  induction 1 as [|a l Hl IH Ha]; simpl.
  - constructor.
  - apply StronglySorted_app.
    + exact IH.
    + repeat constructor.
    + intros x y Hx [<-|[]]. apply in_rev in Hx.
      rewrite Forall_forall in Ha. exact (Ha x Hx).
Qed.

Lemma group_data_StronglySorted
    (categories data : list string) (reverse : bool) :
  StronglySorted (key_order snd reverse) (group_data categories data reverse).
Proof.
  apply Sorted_StronglySorted.
  - intros a b c. apply in_order_trans.
  - apply sorted_Sorted.
Qed.

(** X1.  Every entry of the output pairs a name of the input with the
    number of times that name occurs in the input, and every name of the
    input has its entry. *)
Theorem group_data_entry
    (data categories : list string) (reverse : bool) (x : string) (c : Z) :
  set_listing data categories ->
  In (x, c) (group_data categories data reverse)
  <-> In x data /\ c = count x data.
Proof.
  intros [_ Hin]. split.
  - intros H.
    apply (Permutation_in _ (group_data_Permutation _ _ _)) in H.
    apply in_map_iff in H. destruct H as [y [E Hy]].
    injection E as -> <-. split; [now apply Hin | reflexivity].
  - intros [Hx ->].
    apply (Permutation_in _ (Permutation_sym (group_data_Permutation _ _ _))).
    apply in_map_iff. exists x. split; [reflexivity | now apply Hin].
Qed.

Lemma group_data_entry_witness :
  In ("b"%string, 2) (group_data ["a"; "b"]%string ["b"; "a"; "b"]%string true)
  <-> In "b"%string ["b"; "a"; "b"]%string
      /\ 2 = count "b"%string ["b"; "a"; "b"]%string.
Proof.
  exact (group_data_entry _ _ true "b"%string 2 set_listing_ab).
Defined.

(** X2.  The output has one entry for each distinct name of the input, so
    never more entries than the input has items. *)
Theorem group_data_length
    (data categories : list string) (reverse : bool) :
  set_listing data categories ->
  List.length (group_data categories data reverse)
  = List.length (nodup string_dec data)
  /\ (List.length (group_data categories data reverse)
      <= List.length data)%nat.
Proof.
  intros Hset.
  assert (List.length (group_data categories data reverse)
          = List.length categories) as E.
  { rewrite (Permutation_length (group_data_Permutation _ _ _)).
    apply length_map. }
  rewrite E. split.
  - apply Permutation_length.
    apply (set_listing_Permutation data); [exact Hset|].
    apply set_listing_listing_of.
  - destruct Hset as [Hnd Hin]. apply NoDup_incl_length; [exact Hnd|].
    intros x. apply Hin.
Qed.

Lemma group_data_length_witness :
  List.length (group_data ["a"; "b"]%string ["b"; "a"; "b"]%string true)
  = List.length (nodup string_dec ["b"; "a"; "b"]%string)
  /\ (List.length (group_data ["a"; "b"]%string ["b"; "a"; "b"]%string true)
      <= List.length ["b"; "a"; "b"]%string)%nat.
Proof.
  exact (group_data_length _ _ true set_listing_ab).
Defined.

(** X3.  The output does not depend on the order of the input items: for
    a given listing of the names, two inputs with the same items in any
    order give the same output. *)
Theorem group_data_input_order
    (data1 data2 categories : list string) (reverse : bool) :
  Permutation data1 data2 ->
  set_listing data1 categories ->
  set_listing data2 categories
  /\ group_data categories data1 reverse = group_data categories data2 reverse.
Proof.
  intros HP [Hnd Hin]. split.
  - split; [exact Hnd|]. intros x. rewrite Hin. split; apply Permutation_in.
    + exact HP.
    + now symmetry.
  - unfold group_data. f_equal. apply map_ext. intros c.
    f_equal. now apply count_Permutation.
Qed.

Lemma group_data_input_order_witness :
  set_listing ["a"; "b"; "b"]%string ["a"; "b"]%string
  /\ group_data ["a"; "b"]%string ["b"; "a"; "b"]%string true
     = group_data ["a"; "b"]%string ["a"; "b"; "b"]%string true.
Proof.
  apply group_data_input_order.
  - apply perm_swap.
  - exact set_listing_ab.
Defined.

(** X4.  With [reverse=True] the first entry of the output has the
    largest count of all, with [reverse=False] the smallest. *)
Theorem group_data_first_is_extreme
    (categories data : list string) (reverse : bool)
    (first : string * Z) (rest : list (string * Z)) :
  group_data categories data reverse = first :: rest ->
  Forall (fun entry => if reverse then snd entry <= snd first
                       else snd first <= snd entry) rest.
Proof.
  intros E.
  pose proof (group_data_StronglySorted categories data reverse) as H.
  rewrite E in H. apply StronglySorted_inv in H. destruct H as [_ H].
  revert H. apply Forall_impl. intros entry.
  unfold key_order, in_order. now destruct reverse.
Qed.

Lemma group_data_first_is_extreme_witness :
  Forall (fun entry => snd entry <= snd ("b"%string, 2))
         [("a"%string, 1)].
Proof.
  exact (group_data_first_is_extreme
           ["a"; "b"]%string ["b"; "a"; "b"]%string true
           ("b"%string, 2) [("a"%string, 1)] eq_refl).
Defined.

(** X5.  Entries with equal counts come in the order in which their
    names are listed by [list(set(data))], whatever the flag. *)
Theorem group_data_ties
    (categories data : list string) (reverse : bool) (k : Z) :
  filter (fun entry => snd entry =? k) (group_data categories data reverse)
  = map (fun name => (name, k))
        (filter (fun name => count name data =? k) categories).
Proof.
  unfold group_data. rewrite sorted_stable.
  induction categories as [|c l IH]; [reflexivity|].
  cbn [map filter snd]. rewrite IH.
  destruct (Z.eqb_spec (count c data) k) as [->|_]; reflexivity.
Qed.

(** X6.  The two modes give the same counts in opposite orders. *)
Theorem group_data_reverse_counts (categories data : list string) :
  counts (group_data categories data false)
  = rev (counts (group_data categories data true)).
Proof.
  apply (in_order_unique false).
  - rewrite counts_group_data. apply sorted_keys_StronglySorted.
  - apply StronglySorted_rev.
    rewrite counts_group_data. apply sorted_keys_StronglySorted.
  - rewrite <- Permutation_rev. unfold counts. apply Permutation_map.
    rewrite !group_data_Permutation. reflexivity.
Qed.

(** * More on the Sampler *)

(** ** Which item a draw selects *)

Lemma Qltb_true (x y : Q) : Qltb x y = true -> (x < y)%Q.
Proof.
  unfold Qltb. intros H. apply Qnot_le_lt. intros Hle.
  apply Qle_bool_iff in Hle. rewrite Hle in H. discriminate H.
Qed.

Lemma Qltb_false (x y : Q) : Qltb x y = false -> (y <= x)%Q.
Proof.
  unfold Qltb. intros H. apply Qle_bool_iff.
  destruct (Qle_bool y x); [reflexivity | discriminate H].
Qed.

(** On a list in non-decreasing order, with [x] below the item at [hi],
    the bisection returns the first index whose item is above [x]. *)
Lemma bisect_loop_first_above (a : list Q) (x : Q) (fuel lo hi : nat) :
  (forall i j, (i <= j < List.length a)%nat -> (nth i a 0 <= nth j a 0)%Q) ->
  (hi - lo <= fuel)%nat ->
  (lo <= hi < List.length a)%nat ->
  (forall i, (i < lo)%nat -> (nth i a 0 <= x)%Q) ->
  (x < nth hi a 0)%Q ->
  (forall i, (i < bisect_loop fuel a x lo hi)%nat -> (nth i a 0 <= x)%Q)
  /\ (x < nth (bisect_loop fuel a x lo hi) a 0)%Q.
Proof.
  intros Hsorted. revert lo hi.
  induction fuel as [|fuel IH]; intros lo hi Hfuel Hlohi Hlo Hhi;
    cbn [bisect_loop].
  - assert (lo = hi) as -> by lia. auto.
  - destruct (Nat.ltb_spec lo hi) as [Hlt|Hge].
    + pose proof (midpoint_between lo hi Hlt) as Hmid.
      set (mid := ((lo + hi) / 2)%nat) in *. clearbody mid.
      destruct (Qltb x (nth mid a 0%Q)) eqn:E.
      * apply IH; try lia; [exact Hlo|]. now apply Qltb_true.
      * apply IH; try lia; [|exact Hhi].
        intros i Hi. apply Qle_trans with (nth mid a 0%Q).
        -- apply Hsorted. lia.
        -- now apply Qltb_false.
    + assert (lo = hi) as -> by lia. auto.
Qed.

Lemma draws_nth (rand : nat -> Q) (population : list string)
    (cum_weights : list Q) (total : Q) (hi k : nat) (g g' : rng)
    (out : list string) (i : nat) (c : string) :
  draws rand population cum_weights total hi k g = (Ok out, g') ->
  nth_error out i = Some c ->
  nth_error population
    (bisect cum_weights (rand (g + i)%nat * total)%Q 0 hi) = Some c.
Proof.
  revert g g' out i. induction k as [|k IH]; intros g g' out i Hd Hi.
  - cbn in Hd. injection Hd as <- _. destruct i; discriminate Hi.
  - cbn [draws] in Hd. unfold bindM at 1 in Hd. unfold random in Hd.
    unfold bindM at 1 in Hd. unfold lift in Hd.
    destruct (nth_error population
                (bisect cum_weights (rand g * total)%Q 0 hi))
      as [c0|] eqn:E; [|discriminate Hd].
    unfold bindM in Hd.
    destruct (draws rand population cum_weights total hi k (S g))
      as [[cs|e] g2] eqn:Ek; [|discriminate Hd].
    unfold ret in Hd. injection Hd as <- _.
    destruct i as [|i].
    + rewrite Nat.add_0_r. cbn in Hi. now injection Hi as <-.
    + cbn in Hi. rewrite Nat.add_succ_r.
      exact (IH (S g) g2 cs i Ek Hi).
Qed.

(** ** The cumulative weights *)

Lemma nth_accumulate_from (l : list Q) (acc : Q) (j : nat) :
  (j < List.length l)%nat ->
  (nth j (accumulate_from acc l) 0 == acc + qsum (firstn (S j) l))%Q.
Proof.
  revert acc j. induction l as [|w l IH]; intros acc j Hj; cbn in Hj.
  - lia.
  - destruct j as [|j].
    + cbn. ring.
    + cbn [accumulate_from nth]. rewrite IH by lia.
      change (firstn (S (S j)) (w :: l)) with (w :: firstn (S j) l).
      cbn [qsum fold_right]. fold (qsum (firstn (S j) l)). ring.
Qed.

Lemma nth_accumulate (l : list Q) (j : nat) :
  (j < List.length l)%nat ->
  (nth j (accumulate l) 0 == qsum (firstn (S j) l))%Q.
Proof.
  destruct l as [|w l]; intros Hj; cbn in Hj; [lia|].
  destruct j as [|j].
  - cbn. ring.
  - cbn [accumulate nth]. rewrite nth_accumulate_from by lia.
    change (firstn (S (S j)) (w :: l)) with (w :: firstn (S j) l).
    cbn [qsum fold_right]. reflexivity.
Qed.

Lemma nth_cum_weights (total : Z) (categories : list (string * Z)) (j : nat) :
  (j < List.length categories)%nat ->
  (nth j (accumulate
            (map (fun c => inject_Z (snd c) / inject_Z total) categories)) 0
   == inject_Z (sum (firstn (S j) (map snd categories))) / inject_Z total)%Q.
Proof.
  intros Hj. rewrite nth_accumulate by now rewrite length_map.
  rewrite firstn_map, qsum_normalised, firstn_map. reflexivity.
Qed.

Lemma sum_firstn_le (l : list Z) (i j : nat) :
  Forall (fun w => 0 <= w) l -> (i <= j)%nat ->
  sum (firstn i l) <= sum (firstn j l).
Proof.
  intros Hl. revert i j. induction Hl as [|w l Hw Hl IH]; intros i j Hij.
  - rewrite !firstn_nil. lia.
  - destruct i as [|i]; destruct j as [|j]; try lia.
    + cbn [firstn]. rewrite sum_cons, sum_nil.
      specialize (IH 0%nat j). cbn [firstn] in IH. rewrite sum_nil in IH. lia.
    + cbn [firstn]. rewrite !sum_cons. specialize (IH i j). lia.
Qed.

Lemma Qdiv_le_pos (a b t : Z) :
  0 < t -> a <= b -> (inject_Z a / inject_Z t <= inject_Z b / inject_Z t)%Q.
Proof.
  intros Ht Hab. unfold Qdiv. apply Qmult_le_compat_r.
  - now rewrite <- Zle_Qle.
  - apply Qinv_le_0_compat. change 0%Q with (inject_Z 0).
    rewrite <- Zle_Qle. lia.
Qed.

Lemma sum_firstn_S (l : list Z) (j : nat) (w : Z) :
  nth_error l j = Some w ->
  sum (firstn (S j) l) = sum (firstn j l) + w.
Proof.
  revert j. induction l as [|a l IH]; intros j Hj.
  - destruct j; discriminate Hj.
  - destruct j as [|j].
    + cbn in Hj. injection Hj as ->. cbn [firstn].
      rewrite sum_cons, !sum_nil. lia.
    + cbn in Hj. change (firstn (S (S j)) (a :: l)) with (a :: firstn (S j) l).
      change (firstn (S j) (a :: l)) with (a :: firstn j l).
      rewrite !sum_cons, (IH j Hj). lia.
Qed.

Lemma sum_firstn_all (l : list Z) : sum (firstn (List.length l) l) = sum l.
Proof. now rewrite firstn_all. Qed.

(** With a total other than zero the Sampler is the list of draws on the
    cumulative normalised weights, scaled by a total equal to 1. *)
Lemma generate_as_draws (categories : list (string * Z)) :
  sum (map snd categories) <> 0 ->
  exists total,
    (total == 1)%Q
    /\ forall rand num_samples g,
         generate_synthetic_data rand categories num_samples g
         = draws rand (map fst categories)
             (accumulate
                (map (fun c => inject_Z (snd c)
                               / inject_Z (sum (map snd categories)))%Q
                     categories))
             total (List.length categories - 1) (Z.to_nat num_samples) g.
Proof.
  intros Ht.
  set (total := sum (map snd categories)) in *.
  set (prob := fun x : string * Z => (inject_Z (snd x) / inject_Z total)%Q).
  assert (exists last,
            last_item (accumulate (map prob categories)) = Ok last
            /\ (last + 0 == 1)%Q) as [last [Hlast Hone]].
  { destruct categories as [|c l] eqn:E; [exfalso; now apply Ht|].
    destruct (last_item_accumulate (prob c) (map prob l))
      as [last [Hlast Hq]].
    exists last. split; [exact Hlast|].
    rewrite Hq. change (prob c :: map prob l) with (map prob (c :: l)).
    unfold prob. rewrite qsum_normalised. fold total.
    field. now apply inject_Z_nonzero. }
  exists (last + 0)%Q. split; [exact Hone|]. intros rand num_samples g.
  unfold generate_synthetic_data. fold total.
  rewrite normalise_Ok by exact Ht. unfold bindM at 1. unfold lift at 1.
  rewrite !map_map. cbn [fst snd]. fold prob.
  unfold choices. rewrite length_accumulate, !length_map, Nat.eqb_refl.
  cbn [negb]. rewrite Hlast. unfold bindM, lift.
  assert (Qle_bool (last + 0) 0 = false) as ->.
  { destruct (Qle_bool (last + 0) 0) eqn:E; [|reflexivity].
    apply Qle_bool_iff in E. rewrite Hone in E.
    exfalso. apply (Qle_not_lt _ _ E). reflexivity. }
  reflexivity.
Qed.

Lemma Qdiv_mult_cancel (s t : Z) :
  t <> 0 -> (inject_Z s / inject_Z t * inject_Z t == inject_Z s)%Q.
Proof. intros Ht. field. now apply inject_Z_nonzero. Qed.

(** The draw with value [r] selects the index [j] with
    [w_0 + ... + w_(j-1) <= r * total < w_0 + ... + w_j]. *)
Lemma draw_interval (rand : nat -> Q)
    (categories : list (string * Z)) (num_samples : Z) (g : rng) :
  Forall (fun c => 0 <= snd c) categories ->
  0 < sum (map snd categories) ->
  (forall n, 0 <= rand n /\ rand n < 1)%Q ->
  exists out,
    generate_synthetic_data rand categories num_samples g
    = (Ok out, (g + Z.to_nat num_samples)%nat)
    /\ forall i name,
         nth_error out i = Some name ->
         exists j w,
           nth_error categories j = Some (name, w)
           /\ (inject_Z (sum (firstn j (map snd categories)))
               <= rand (g + i)%nat * inject_Z (sum (map snd categories)))%Q
           /\ (rand (g + i)%nat * inject_Z (sum (map snd categories))
               < inject_Z (sum (firstn (S j) (map snd categories))))%Q.
Proof.
  intros Hnonneg Hpos Hrand.
  assert (sum (map snd categories) <> 0) as Ht by lia.
  destruct (generate_nonzero_total rand categories num_samples g Ht)
    as [out [Hout _]].
  exists out. split; [exact Hout|]. intros i name Hi.
  destruct (generate_as_draws categories Ht) as [total [Hone Hdraws]].
  specialize (Hdraws rand num_samples g).
  rewrite Hout in Hdraws. symmetry in Hdraws.
  pose proof (draws_nth _ _ _ _ _ _ _ _ _ _ _ Hdraws Hi) as Hj.
  set (T := sum (map snd categories)) in *.
  set (cum := accumulate
                (map (fun c => (inject_Z (snd c) / inject_Z T)%Q) categories))
    in *.
  set (n := List.length categories) in *.
  assert (0 < n)%nat as Hn.
  { subst n T. destruct categories; [discriminate Hpos | simpl; lia]. }
  assert (List.length cum = n) as Hlen
    by (subst cum; now rewrite length_accumulate, length_map).
  assert (forall k, (k < n)%nat ->
            (nth k cum 0 == inject_Z (sum (firstn (S k) (map snd categories)))
                            / inject_Z T)%Q) as Hcum
    by (intros k Hk; now apply nth_cum_weights).
  assert (Forall (fun w => 0 <= w) (map snd categories)) as Hws.
  { apply Forall_map. exact Hnonneg. }
  set (x := (rand (g + i)%nat * total)%Q) in *.
  assert (x == rand (g + i)%nat)%Q as Hx by (subst x; rewrite Hone; ring).
  destruct (bisect_loop_first_above cum x (n - 1 - 0) 0 (n - 1)) as [Hlow Hhigh].
  { intros a b Hab. rewrite Hlen in Hab. rewrite !Hcum by lia.
    apply Qdiv_le_pos; [exact Hpos|]. apply sum_firstn_le; [exact Hws | lia]. }
  { lia. }
  { lia. }
  { intros a Ha. lia. }
  { rewrite Hcum by lia. replace (S (n - 1)) with n by lia.
    subst n. rewrite <- (length_map snd categories), sum_firstn_all. fold T.
    rewrite Hx. setoid_replace (inject_Z T / inject_Z T)%Q with 1%Q
      by (field; now apply inject_Z_nonzero).
    apply Hrand. }
  fold (bisect cum x 0 (n - 1)) in Hlow, Hhigh.
  set (j := bisect cum x 0 (n - 1)) in *.
  assert (j < n)%nat as Hjn.
  { subst n. rewrite <- (length_map fst categories). apply nth_error_Some.
    now rewrite Hj. }
  rewrite nth_error_map in Hj.
  destruct (nth_error categories j) as [[name' w]|] eqn:Ej; [|discriminate Hj].
  cbn in Hj. injection Hj as ->.
  exists j, w. split; [exact Ej|].
  assert (0 < inject_Z T)%Q as HTq.
  { change 0%Q with (inject_Z 0). now rewrite <- Zlt_Qlt. }
  split.
  - destruct j as [|j'].
    + cbn [firstn]. rewrite sum_nil. apply Qmult_le_0_compat.
      * apply Hrand.
      * now apply Qlt_le_weak.
    + specialize (Hlow j' ltac:(lia)). rewrite Hcum, Hx in Hlow by lia.
      apply (Qmult_le_r _ _ (inject_Z T) HTq) in Hlow.
      rewrite Qdiv_mult_cancel in Hlow by exact Ht. exact Hlow.
  - rewrite Hcum, Hx in Hhigh by lia.
    apply (Qmult_lt_r _ _ (inject_Z T) HTq) in Hhigh.
    rewrite Qdiv_mult_cancel in Hhigh by exact Ht. exact Hhigh.
Qed.

Lemma rand_demo_unit (n : nat) : (0 <= rand_demo n /\ rand_demo n < 1)%Q.
Proof.
  destruct n as [|[|[|n]]]; split; cbn; unfold Qle, Qlt; cbn; lia.
Qed.

(** X8.  With weights that are not negative, a positive total and a
    generator with values in [0, 1), a category of weight 0 is never
    drawn: every name returned belongs to a category whose weight is
    positive. *)
Theorem generate_synthetic_data_positive_weight (rand : nat -> Q)
    (categories : list (string * Z)) (num_samples : Z) (g : rng) :
  Forall (fun c => 0 <= snd c) categories ->
  0 < sum (map snd categories) ->
  (forall n, 0 <= rand n /\ rand n < 1)%Q ->
  exists out,
    generate_synthetic_data rand categories num_samples g
    = (Ok out, (g + Z.to_nat num_samples)%nat)
    /\ Forall (fun name => exists w, In (name, w) categories /\ 0 < w) out.
Proof.
  intros Hnonneg Hpos Hrand.
  destruct (draw_interval rand categories num_samples g Hnonneg Hpos Hrand)
    as [out [Hout Hsel]].
  exists out. split; [exact Hout|].
  apply Forall_forall. intros name Hin.
  apply In_nth_error in Hin. destruct Hin as [i Hi].
  destruct (Hsel i name Hi) as [j [w [Hj [Hlow Hhigh]]]].
  exists w. split; [eapply nth_error_In; exact Hj|].
  pose proof (Qle_lt_trans _ _ _ Hlow Hhigh) as Hlt.
  rewrite <- Zlt_Qlt in Hlt.
  rewrite (sum_firstn_S (map snd categories) j w) in Hlt; [lia|].
  rewrite nth_error_map, Hj. reflexivity.
Qed.

Lemma generate_synthetic_data_positive_weight_witness :
  exists out,
    generate_synthetic_data rand_demo weights_sparse 4 0%nat
    = (Ok out, (0 + Z.to_nat 4)%nat)
    /\ Forall (fun name => exists w, In (name, w) weights_sparse /\ 0 < w)
              out.
Proof.
  apply generate_synthetic_data_positive_weight.
  - repeat constructor; cbn; lia.
  - reflexivity.
  - exact rand_demo_unit.
Defined.

(** ** The use of the generator *)

Lemma draws_S (rand : nat -> Q) (population : list string)
    (cum_weights : list Q) (total : Q) (hi k : nat) (g : rng) :
  draws rand population cum_weights total hi (S k) g
  = match nth_error population
            (bisect cum_weights (rand g * total)%Q 0 hi) with
    | None => (Raise IndexError, S g)
    | Some c =>
        match draws rand population cum_weights total hi k (S g) with
        | (Ok cs, g') => (Ok (c :: cs), g')
        | (Raise e, g') => (Raise e, g')
        end
    end.
Proof.
  cbn [draws]. unfold bindM, random, lift, ret.
  destruct (nth_error population
              (bisect cum_weights (rand g * total)%Q 0 hi)); [|reflexivity].
  destruct (draws rand population cum_weights total hi k (S g)) as [[cs|e] g'];
    reflexivity.
Qed.

Lemma draws_ext (rand1 rand2 : nat -> Q) (population : list string)
    (cum_weights : list Q) (total : Q) (hi k : nat) (g : rng) :
  (forall i, (g <= i < g + k)%nat -> rand1 i = rand2 i) ->
  draws rand1 population cum_weights total hi k g
  = draws rand2 population cum_weights total hi k g.
Proof.
  revert g. induction k as [|k IH]; intros g Hr; [reflexivity|].
  rewrite !draws_S, (Hr g) by lia.
  rewrite (IH (S g)); [reflexivity|].
  intros i Hi. apply Hr. lia.
Qed.

Lemma draws_app (rand : nat -> Q) (population : list string)
    (cum_weights : list Q) (total : Q) (hi k1 k2 : nat) (g g1 g2 : rng)
    (out1 out2 : list string) :
  draws rand population cum_weights total hi k1 g = (Ok out1, g1) ->
  draws rand population cum_weights total hi k2 g1 = (Ok out2, g2) ->
  draws rand population cum_weights total hi (k1 + k2) g
  = (Ok (out1 ++ out2), g2).
Proof.
  revert g out1. induction k1 as [|k1 IH]; intros g out1 H1 H2.
  - cbn in H1. injection H1 as <- <-. exact H2.
  - cbn [Nat.add]. rewrite draws_S in *.
    destruct (nth_error population
                (bisect cum_weights (rand g * total)%Q 0 hi)) as [c|];
      [|discriminate H1].
    destruct (draws rand population cum_weights total hi k1 (S g))
      as [[cs|e] g'] eqn:E; [|discriminate H1].
    injection H1 as <- <-.
    rewrite (IH (S g) cs E H2). reflexivity.
Qed.

(** X14.  The Sampler reads the next [N] values of the generator and no
    other: two generators that agree on them give the same result, be it
    a list of names or an error. *)
Theorem generate_synthetic_data_reads_next_values (rand1 rand2 : nat -> Q)
    (categories : list (string * Z)) (num_samples : Z) (g : rng) :
  (forall i, (g <= i < g + Z.to_nat num_samples)%nat -> rand1 i = rand2 i) ->
  generate_synthetic_data rand1 categories num_samples g
  = generate_synthetic_data rand2 categories num_samples g.
Proof.
  intros Hr. destruct (Z.eq_dec (sum (map snd categories)) 0) as [E|E].
  - destruct categories as [|c l].
    + now rewrite !generate_empty.
    + now rewrite !generate_zero_total by (discriminate || exact E).
  - destruct (generate_as_draws categories E) as [total [_ Hdraws]].
    rewrite !Hdraws. now apply draws_ext.
Qed.

Lemma generate_synthetic_data_reads_next_values_witness :
  generate_synthetic_data rand_demo weights_demo 3 0%nat
  = generate_synthetic_data
      (fun i => if (i <? 3)%nat then rand_demo i else 0%Q) weights_demo 3 0%nat.
Proof.
  apply generate_synthetic_data_reads_next_values.
  intros i Hi. destruct (Nat.ltb_spec i 3) as [_|H]; [reflexivity|].
  cbn in Hi. lia.
Defined.

(** X15.  Sampling in two calls is sampling in one: when a call for [N1]
    samples is followed by a call for [N2] samples with the same weights,
    the two lists one after the other are what a single call for
    [N1 + N2] samples returns from the same state of the generator. *)
Theorem generate_synthetic_data_in_two_calls (rand : nat -> Q)
    (categories : list (string * Z)) (n1 n2 : Z) (g g1 g2 : rng)
    (out1 out2 : list string) :
  0 <= n1 -> 0 <= n2 ->
  generate_synthetic_data rand categories n1 g = (Ok out1, g1) ->
  generate_synthetic_data rand categories n2 g1 = (Ok out2, g2) ->
  generate_synthetic_data rand categories (n1 + n2) g
  = (Ok (out1 ++ out2), g2).
Proof.
  intros Hn1 Hn2 H1 H2.
  destruct (Z.eq_dec (sum (map snd categories)) 0) as [E|E].
  - destruct categories as [|c l].
    + rewrite generate_empty in H1. discriminate H1.
    + rewrite generate_zero_total in H1 by (discriminate || exact E).
      discriminate H1.
  - destruct (generate_as_draws categories E) as [total [_ Hdraws]].
    rewrite Hdraws in *. rewrite Z2Nat.inj_add by assumption.
    eapply draws_app; eassumption.
Qed.

Lemma generate_synthetic_data_in_two_calls_witness :
  generate_synthetic_data rand_demo weights_demo (2 + 3) 0%nat
  = (Ok (["A"; "C"]%string ++ ["C"; "B"; "B"]%string)%list, 5%nat).
Proof.
  apply (generate_synthetic_data_in_two_calls rand_demo weights_demo
           2 3 0%nat 2%nat 5%nat); try lia; reflexivity.
Defined.

(** * More on the Renderer *)

Lemma pareto_chart_zero_total (data : list (string * Z)) :
  data <> [] ->
  sum (map snd data) = 0 ->
  pareto_chart data = Raise ZeroDivisionError.
Proof.
  intros Hne Ht. unfold pareto_chart.
  rewrite running_sum_scan, Ht. cbn [bind].
  destruct data as [|d l]; [congruence|]. reflexivity.
Qed.

Lemma percent_le (total a b : Z) :
  0 < total -> a <= b ->
  (inject_Z a / inject_Z total * 100 <= inject_Z b / inject_Z total * 100)%Q.
Proof.
  intros Ht Hab. apply Qmult_le_compat_r; [|discriminate].
  now apply Qdiv_le_pos.
Qed.

Lemma sum_nonneg (l : list Z) : Forall (fun w => 0 <= w) l -> 0 <= sum l.
Proof.
  induction 1 as [|w l Hw _ IH]; [rewrite sum_nil | rewrite sum_cons]; lia.
Qed.

Lemma sum_firstn_bounds (l : list Z) (k : nat) :
  Forall (fun w => 0 <= w) l -> 0 <= sum (firstn k l) <= sum l.
Proof.
  intros Hl. split.
  - pose proof (sum_firstn_le l 0 k Hl (Nat.le_0_l k)) as H.
    cbn [firstn] in H. now rewrite sum_nil in H.
  - destruct (Nat.le_gt_cases k (List.length l)) as [Hk|Hk].
    + pose proof (sum_firstn_le l k (List.length l) Hl Hk) as H.
      now rewrite sum_firstn_all in H.
    + rewrite firstn_all2 by lia. lia.
Qed.

(** X11.  For counts that are not negative, with a total other than
    zero, every cumulative percentage lies between 0 and 100, inside the
    range 0 to 110 of the second axis, and the series never decreases. *)
Theorem percent_cumsum_bounded_monotone (data : list (string * Z)) :
  Forall (fun c => 0 <= snd c) data ->
  sum (map snd data) <> 0 ->
  exists fig,
    pareto_chart data = Ok fig
    /\ Forall (fun p => 0 <= p /\ p <= 100)%Q (line_y fig)
    /\ forall i p q,
         nth_error (line_y fig) i = Some p ->
         nth_error (line_y fig) (S i) = Some q ->
         (p <= q)%Q.
Proof.
  intros Hnonneg Ht.
  assert (Forall (fun w => 0 <= w) (map snd data)) as Hws
    by (apply Forall_map; exact Hnonneg).
  assert (0 < sum (map snd data)) as Hpos
    by (pose proof (sum_nonneg _ Hws); lia).
  eexists. split; [now apply pareto_chart_Ok|]. cbn [line_y].
  set (T := sum (map snd data)) in *.
  assert (forall i p,
            nth_error (map (fun c => (inject_Z c / inject_Z T * 100)%Q)
                           (scan 0 (map snd data))) i = Some p ->
            p = (inject_Z (sum (firstn (S i) (map snd data)))
                 / inject_Z T * 100)%Q) as Hnth.
  { intros i p Hp. rewrite nth_error_map in Hp.
    destruct (nth_error (scan 0 (map snd data)) i) as [c|] eqn:E;
      [|discriminate Hp].
    assert (i < List.length (map snd data))%nat as Hi.
    { rewrite <- (length_scan 0). apply nth_error_Some. now rewrite E. }
    rewrite nth_error_scan in E by exact Hi.
    injection E as <-. cbn in Hp. now injection Hp as <-. }
  split.
  - apply Forall_forall. intros p Hin.
    apply In_nth_error in Hin. destruct Hin as [i Hi].
    rewrite (Hnth i p Hi).
    pose proof (sum_firstn_bounds (map snd data) (S i) Hws) as [Hlo Hhi].
    fold T in Hhi. split.
    + apply Qle_trans with (inject_Z 0 / inject_Z T * 100)%Q.
      * apply Qle_lteq. right. field. now apply inject_Z_nonzero.
      * now apply percent_le.
    + apply Qle_trans with (inject_Z T / inject_Z T * 100)%Q.
      * now apply percent_le.
      * apply Qle_lteq. right. field. now apply inject_Z_nonzero.
  - intros i p q Hp Hq. rewrite (Hnth i p Hp), (Hnth (S i) q Hq).
    apply percent_le; [exact Hpos|]. apply sum_firstn_le; [exact Hws | lia].
Qed.

Lemma percent_cumsum_bounded_monotone_witness :
  exists fig,
    pareto_chart weights_demo = Ok fig
    /\ Forall (fun p => 0 <= p /\ p <= 100)%Q (line_y fig)
    /\ forall i p q,
         nth_error (line_y fig) i = Some p ->
         nth_error (line_y fig) (S i) = Some q ->
         (p <= q)%Q.
Proof.
  apply percent_cumsum_bounded_monotone.
  - repeat constructor; cbn; lia.
  - discriminate.
Defined.

(** * The stages together *)

(** ** The driver *)

Lemma zip_categories (shuffled : list Z) :
  Permutation shuffled _frequency ->
  map fst (combine _categories shuffled) = _categories
  /\ map snd (combine _categories shuffled) = shuffled.
Proof.
  intros HP. apply Permutation_length in HP. cbn in HP.
  do 9 (destruct shuffled as [|? shuffled]; [discriminate HP|]).
  destruct shuffled; [|discriminate HP]. split; reflexivity.
Qed.

(** X13.  [main] never fails, whatever the shuffle of the weights, the
    values of the generator and the order in which the set of names is
    listed: it draws 1000 samples, returns 0, and shows a chart whose
    bars add up to 1000, number at most nine with names among "A" to
    "I", stand in the order of the grouped data, tallest first, and
    whose line ends at 100. *)
Theorem main_runs (rand : nat -> Q) (shuffled : list Z)
    (set_order : list string -> list string) (g : rng) :
  Permutation shuffled _frequency ->
  (forall data, set_listing data (set_order data)) ->
  exists fig p,
    main rand shuffled set_order g = (Ok (fig, 0), (g + 1000)%nat)
    /\ sum (bar_height fig) = 1000
    /\ (List.length (bar_x fig) <= 9)%nat
    /\ (forall x, In x (bar_x fig) -> In x _categories)
    /\ StronglySorted (fun a b => b <= a) (bar_height fig)
    /\ last_item (line_y fig) = Ok p
    /\ (p == 100)%Q.
Proof.
  intros HP Hset.
  destruct (zip_categories shuffled HP) as [Hfst Hsnd].
  assert (sum (map snd (combine _categories shuffled)) <> 0) as Ht.
  { rewrite Hsnd, (sum_Permutation _ _ HP). discriminate. }
  destruct (generate_nonzero_total rand (combine _categories shuffled)
              1000 g Ht) as [data [Hdata [Hlen Hall]]].
  rewrite Hfst in Hall. rewrite Forall_forall in Hall.
  set (grouped := group_data (set_order data) data true).
  pose proof (sum_counts_group_data data (set_order data) true (Hset data))
    as Hsum.
  fold grouped in Hsum. unfold counts in Hsum.
  assert (sum (map snd grouped) = 1000) as Hsum'.
  { rewrite Hsum. unfold len. rewrite Hlen. reflexivity. }
  assert (grouped <> []) as Hne.
  { intros E. rewrite E in Hsum'. discriminate Hsum'. }
  eexists. eexists. split.
  { unfold main. unfold bindM at 1. rewrite Hdata. fold grouped.
    unfold bindM, lift, ret.
    rewrite pareto_chart_Ok by (rewrite Hsum'; discriminate).
    reflexivity. }
  cbn [bar_height bar_x line_y].
  pose proof (names_group_data (set_order data) data true) as Hnames.
  fold grouped in Hnames. unfold names in Hnames.
  destruct (Hset data) as [Hnd Hin].
  split; [exact Hsum'|]. split; [|split; [|split; [|split]]].
  - rewrite (Permutation_length Hnames).
    change 9%nat with (List.length _categories).
    apply NoDup_incl_length; [exact Hnd|].
    intros x Hx. apply Hall. now apply Hin.
  - intros x Hx. apply Hall, Hin. eapply Permutation_in; eassumption.
  - fold (counts grouped). unfold grouped. rewrite counts_group_data.
    exact (sorted_keys_StronglySorted true _).
  - now apply last_percentage.
  - apply percent_of_total. rewrite Hsum'. discriminate.
Qed.

Lemma main_runs_witness :
  exists fig p,
    main rand_demo _frequency listing_of 0%nat = (Ok (fig, 0), (0 + 1000)%nat)
    /\ sum (bar_height fig) = 1000
    /\ (List.length (bar_x fig) <= 9)%nat
    /\ (forall x, In x (bar_x fig) -> In x _categories)
    /\ StronglySorted (fun a b => b <= a) (bar_height fig)
    /\ last_item (line_y fig) = Ok p
    /\ (p == 100)%Q.
Proof.
  apply main_runs.
  - apply Permutation_refl.
  - exact set_listing_listing_of.
Defined.

(** ** The last percentage on concrete inputs *)

Lemma pareto_chart_of_group_data_witness :
  exists fig p,
    pareto_chart (group_data ["a"; "b"]%string ["b"; "a"; "b"]%string false)
    = Ok fig
    /\ last_item (line_y fig) = Ok p
    /\ (p == 100)%Q.
Proof.
  apply pareto_chart_of_group_data; [exact set_listing_ab | discriminate].
Defined.

Lemma final_cumulative_percentage_binary64_witness :
  exists cumsum c,
    running_sum (map snd weights_demo) = Ok cumsum
    /\ last_item cumsum = Ok c
    /\ percent64 (sum (map snd weights_demo)) c = Ok (float_of_int 100).
Proof.
  apply final_cumulative_percentage_binary64; discriminate.
Defined.

(** * Rounding in binary64 *)

(** ** The number of digits of a mantissa *)

Lemma digits2_pos_size (p : positive) : digits2_pos p = Pos.size p.
Proof. induction p; simpl; congruence. Qed.

Lemma Zdigits2_log2 (m : Z) : 0 < m -> Zdigits2 m = Z.log2 m + 1.
Proof.
  destruct m as [|p|p]; try lia. intros _. cbn [Zdigits2].
  rewrite digits2_pos_size. destruct p; cbn [Z.log2 Pos.size]; lia.
Qed.

Lemma Zdigits2_nonneg (m : Z) : 0 <= Zdigits2 m.
Proof. destruct m; cbn; lia. Qed.

Lemma Zdigits2_le (a b : Z) : 0 <= a <= b -> Zdigits2 a <= Zdigits2 b.
Proof.
  intros [Ha Hab]. destruct (Z.eq_dec a 0) as [->|Hne].
  - apply Zdigits2_nonneg.
  - rewrite !Zdigits2_log2 by lia.
    pose proof (Z.log2_le_mono a b Hab). lia.
Qed.

Lemma Zdigits2_succ (m : Z) : 0 <= m -> Zdigits2 (m + 1) <= Zdigits2 m + 1.
Proof.
  intros Hm. destruct (Z.eq_dec m 0) as [->|Hne]; [cbn; lia|].
  rewrite !Zdigits2_log2 by lia.
  pose proof (Z.log2_succ_le m). unfold Z.succ in *. lia.
Qed.

Lemma Zdigits2_pow2 (m k : Z) :
  0 <= k -> 0 <= m <= 2 ^ k -> Zdigits2 m <= k + 1.
Proof.
  intros Hk [Hm Hmk]. destruct (Z.eq_dec m 0) as [->|Hne]; [cbn; lia|].
  rewrite Zdigits2_log2 by lia.
  pose proof (Z.log2_le_mono m (2 ^ k) Hmk) as H.
  rewrite Z.log2_pow2 in H by lia. lia.
Qed.

(** ** Shifting and rounding never enlarge a mantissa by more than 1 *)

Lemma shr_1_bounds (r : shr_record) :
  0 <= shr_m r -> 0 <= shr_m (shr_1 r) <= shr_m r.
Proof.
  destruct r as [m rb sb]. cbn [shr_m]. intros Hm.
  destruct m as [|[p|p|]|p]; cbn; lia.
Qed.

Lemma iter_pos_shr_1_bounds (p : positive) (r : shr_record) :
  0 <= shr_m r -> 0 <= shr_m (iter_pos shr_1 p r) <= shr_m r.
Proof.
  revert r. induction p as [p IH|p IH|]; intros r Hr; cbn [iter_pos].
  - pose proof (shr_1_bounds r Hr) as H1.
    pose proof (IH (shr_1 r) ltac:(lia)) as H2.
    pose proof (IH (iter_pos shr_1 p (shr_1 r)) ltac:(lia)) as H3. lia.
  - pose proof (IH r Hr) as H2.
    pose proof (IH (iter_pos shr_1 p r) ltac:(lia)) as H3. lia.
  - now apply shr_1_bounds.
Qed.

Lemma shr_record_of_loc_m (m : Z) (l : location) :
  shr_m (shr_record_of_loc m l) = m.
Proof. destruct l as [|[]]; reflexivity. Qed.

Lemma shr_fexp_bounds (prec emax m e : Z) (l : location) :
  0 <= m ->
  0 <= shr_m (fst (shr_fexp prec emax m e l)) <= m
  /\ snd (shr_fexp prec emax m e l)
     = Z.max e (fexp prec emax (Zdigits2 m + e)).
Proof.
  intros Hm. unfold shr_fexp, shr.
  destruct (fexp prec emax (Zdigits2 m + e) - e) as [|p|p] eqn:E;
    cbn [fst snd].
  - rewrite shr_record_of_loc_m. lia.
  - pose proof (iter_pos_shr_1_bounds p (shr_record_of_loc m l)) as H.
    rewrite shr_record_of_loc_m in H. lia.
  - rewrite shr_record_of_loc_m. lia.
Qed.

Lemma round_nearest_even_bounds (m : Z) (l : location) :
  0 <= m -> m <= round_nearest_even m l <= m + 1.
Proof.
  intros Hm. unfold round_nearest_even.
  destruct l as [|[]]; try lia. destruct (Z.even m); lia.
Qed.

(** A mantissa and an exponent well below the largest float round to a
    float, not to an infinity. *)
Lemma binary_round_aux_finite (sx : bool) (mx ex : Z) (lx : location) :
  0 <= mx ->
  Zdigits2 mx + 1 + Z.max ex (fexp 53 1024 (Zdigits2 mx + ex)) <= 1024 ->
  Z.max ex (fexp 53 1024 (Zdigits2 mx + ex)) <= 971 ->
  is_infinity (binary_round_aux 53 1024 sx mx ex lx) = false.
Proof.
  intros Hm Hd Hd'. unfold binary_round_aux.
  pose proof (shr_fexp_bounds 53 1024 mx ex lx Hm) as [Hm1 He1].
  destruct (shr_fexp 53 1024 mx ex lx) as [mrs' e'] eqn:E1.
  cbn [fst snd] in *.
  set (mr := round_nearest_even (shr_m mrs') (loc_of_shr_record mrs')).
  pose proof (round_nearest_even_bounds (shr_m mrs')
                (loc_of_shr_record mrs') ltac:(lia)) as Hr.
  fold mr in Hr.
  pose proof (shr_fexp_bounds 53 1024 mr e' loc_Exact ltac:(lia))
    as [Hm2 He2].
  destruct (shr_fexp 53 1024 mr e' loc_Exact) as [mrs'' e''] eqn:E2.
  cbn [fst snd] in *.
  destruct (shr_m mrs'') as [|p|p]; try reflexivity.
  assert (e'' <= 971) as Hle.
  { assert (Zdigits2 mr <= Zdigits2 mx + 1) as Hdr.
    { etransitivity; [apply (Zdigits2_le mr (mx + 1)); lia|].
      apply Zdigits2_succ; lia. }
    subst e'' e'. unfold fexp, emin in *. lia. }
  change (1024 - 53) with 971.
  destruct (Z.leb_spec e'' 971); [reflexivity | lia].
Qed.

(** ** A quotient of at most 1 does not overflow *)

Lemma SFdiv_le_finite (s1 s2 : bool) (m1 m2 : positive) :
  (m1 <= m2)%positive ->
  is_infinity (SFdiv 53 1024 (S754_finite s1 m1 0) (S754_finite s2 m2 0))
  = false.
Proof.
  intros Hle. unfold SFdiv, SFdiv_core_binary.
  set (d1 := Zdigits2 (Z.pos m1)). set (d2 := Zdigits2 (Z.pos m2)).
  assert (0 <= d1 <= d2) as Hd.
  { split; [apply Zdigits2_nonneg | apply Zdigits2_le; lia]. }
  set (e' := Z.min (fexp 53 1024 (d1 + 0 - (d2 + 0))) (0 - 0)).
  assert (-1074 <= e' <= -53) as He by (subst e'; unfold fexp, emin; lia).
  destruct (0 - 0 - e') as [|s|s] eqn:Es; try lia.
  rewrite Z.shiftl_mul_pow2 by lia. rewrite div_eucl_div_mod.
  assert (0 <= Z.pos m1 * 2 ^ Z.pos s / Z.pos m2 <= 2 ^ Z.pos s) as Hq.
  { split.
    - apply Z.div_pos; lia.
    - apply Z.div_le_upper_bound; [lia|].
      apply Z.mul_le_mono_nonneg_r; lia. }
  set (q := Z.pos m1 * 2 ^ Z.pos s / Z.pos m2) in *.
  pose proof (Zdigits2_pow2 q (Z.pos s) ltac:(lia) Hq) as Hdq.
  pose proof (Zdigits2_nonneg q) as Hdq0.
  apply binary_round_aux_finite; [lia| |]; unfold fexp, emin; lia.
Qed.

Lemma truediv64_Ok (c total : Z) :
  0 <= c <= total -> 0 < total ->
  exists q, truediv64 c total = Ok q.
Proof.
  intros Hc Ht. unfold truediv64.
  destruct (Z.eqb_spec total 0) as [E|_]; [lia|].
  destruct total as [|m2|m2]; try lia.
  destruct c as [|m1|m1]; try lia.
  - eexists. reflexivity.
  - cbn [int_mantissa].
    pose proof (SFdiv_le_finite false false m1 m2 ltac:(lia)) as H.
    destruct (SFdiv 53 1024 (S754_finite false m1 0) (S754_finite false m2 0));
      try discriminate H; eexists; reflexivity.
Qed.

Lemma percent64_Ok (c total : Z) :
  0 <= c <= total -> 0 < total ->
  exists v, percent64 total c = Ok v.
Proof.
  intros Hc Ht. unfold percent64.
  destruct (truediv64_Ok c total Hc Ht) as [q ->]. eexists. reflexivity.
Qed.

Lemma percent64_total (total : Z) :
  total <> 0 -> percent64 total total = Ok (float_of_int 100).
Proof.
  intros Ht. unfold percent64. now rewrite truediv64_self.
Qed.

(** * The series of percentages in binary64 *)



(** A comprehension whose body raises on no item returns one value for
    each item, in order. *)
Lemma comprehension_Ok {A B : Type} (f : A -> result B) (l : list A) :
  (forall a, In a l -> exists b, f a = Ok b) ->
  exists bs, comprehension f l = Ok bs
             /\ Forall2 (fun a b => f a = Ok b) l bs.
Proof.
  induction l as [|a l IH]; intros H.
  - exists []. split; [reflexivity | constructor].
  - destruct (H a (or_introl eq_refl)) as [b Hb].
    destruct IH as [bs [Hbs HF]]; [intros x Hx; apply H; now right|].
    exists (b :: bs). split.
    + cbn [comprehension]. now rewrite Hb, Hbs.
    + now constructor.
Qed.


Lemma Forall2_last_item {A B : Type} (R : A -> B -> Prop)
    (l : list A) (l' : list B) (a : A) :
  Forall2 R l l' -> last_item l = Ok a ->
  exists b, last_item l' = Ok b /\ R a b.
Proof.
  induction 1 as [|x y l l' Hxy HF IH]; intros Hl; [discriminate Hl|].
  destruct HF as [|x' y' l l' Hxy' HF].
  - cbn in Hl. injection Hl as <-. exists y. now split.
  - exact (IH Hl).
Qed.

(** The running sums are the sums of the prefixes. *)
Lemma scan_seq (l : list Z) (acc : Z) :
  scan acc l
  = map (fun i => acc + sum (firstn (S i) l)) (seq 0 (List.length l)).
Proof.
  revert acc. induction l as [|c t IH]; intros acc; [reflexivity|].
  cbn [scan List.length seq map]. f_equal.
  rewrite IH, <- seq_shift, map_map. apply map_ext. intros i.
  change (firstn (S (S i)) (c :: t)) with (c :: firstn (S i) t).
  rewrite sum_cons. lia.
Qed.

Lemma percent_cumsum64_scan (data : list (string * Z)) :
  percent_cumsum64 data
  = comprehension (percent64 (sum (map snd data))) (scan 0 (map snd data)).
Proof. unfold percent_cumsum64. now rewrite running_sum_scan. Qed.

Lemma In_scan_bounds (l : list Z) (c : Z) :
  Forall (fun w => 0 <= w) l -> In c (scan 0 l) -> 0 <= c <= sum l.
Proof.
  intros Hl Hin. rewrite scan_seq in Hin. apply in_map_iff in Hin.
  destruct Hin as [i [<- _]]. rewrite Z.add_0_l.
  now apply sum_firstn_bounds.
Qed.

(** With counts that are not negative and a total other than zero no
    division overflows: the series has one float for each count. *)
Lemma percent_cumsum64_Ok (data : list (string * Z)) :
  Forall (fun entry => 0 <= snd entry) data ->
  sum (map snd data) <> 0 ->
  exists series,
    percent_cumsum64 data = Ok series
    /\ Forall2 (fun c v => percent64 (sum (map snd data)) c = Ok v)
               (scan 0 (map snd data)) series.
Proof.
  intros Hnonneg Ht.
  assert (Forall (fun w => 0 <= w) (map snd data)) as Hws
    by (apply Forall_map; exact Hnonneg).
  pose proof (sum_nonneg _ Hws) as H0.
  rewrite percent_cumsum64_scan. apply comprehension_Ok.
  intros c Hc. apply percent64_Ok; [|lia]. now apply In_scan_bounds.
Qed.

Lemma percent_cumsum64_zero_total (data : list (string * Z)) :
  data <> [] ->
  sum (map snd data) = 0 ->
  percent_cumsum64 data = Raise ZeroDivisionError.
Proof.
  intros Hne Ht. rewrite percent_cumsum64_scan, Ht.
  destruct data as [|d l]; [congruence|]. reflexivity.
Qed.

(** ** Grouped counts *)

Lemma grouped_counts_positive (sample : list string)
    (data : list (string * Z)) :
  grouped_counts sample data -> Forall (fun entry => 1 <= snd entry) data.
Proof.
  intros [_ H]. apply Forall_forall. intros [x c] Hin.
  apply H in Hin. destruct Hin as [Hx ->]. cbn. now apply count_In.
Qed.

Lemma sum_positive (l : list Z) :
  Forall (fun w => 1 <= w) l -> l <> [] -> 0 < sum l.
Proof.
  intros Hl Hne. destruct Hl as [|w l Hw Hl]; [congruence|].
  rewrite sum_cons.
  assert (0 <= sum l); [|lia].
  apply sum_nonneg. revert Hl. apply Forall_impl. intros a. lia.
Qed.

Lemma group_data_grouped_counts
    (sample categories : list string) (reverse : bool) :
  set_listing sample categories ->
  grouped_counts sample (group_data categories sample reverse).
Proof.
  intros [Hnd Hin]. split.
  - eapply Permutation_NoDup; [|exact Hnd].
    symmetry. apply names_group_data.
  - intros x c. split.
    + intros H.
      apply (Permutation_in _ (group_data_Permutation _ _ _)) in H.
      apply in_map_iff in H. destruct H as [y [E Hy]].
      injection E as -> <-. split; [now apply Hin | reflexivity].
    + intros [Hx ->].
      apply (Permutation_in _
               (Permutation_sym (group_data_Permutation _ _ _))).
      apply in_map_iff. exists x. split; [reflexivity | now apply Hin].
Qed.

(** * The last percentage, the closed form and the boundaries *)

(** C5.  For every grouped-count sequence that is not empty (one pair
    for each distinct name of a sample, with the number of its
    occurrences, in any order) the chart is drawn and the last item of
    the cumulative-percentage series is 100: in exact arithmetic, and in
    binary64, where the whole series is computed without error and its
    last item is the float 100.0 itself. *)
Theorem final_cumulative_percentage
    (sample : list string) (data : list (string * Z)) :
  grouped_counts sample data ->
  data <> [] ->
  (exists fig p,
     pareto_chart data = Ok fig
     /\ last_item (line_y fig) = Ok p
     /\ (p == 100)%Q
     /\ (Qabs (p - 100) <= 1 # 1000000000)%Q)
  /\ exists series,
       percent_cumsum64 data = Ok series
       /\ last_item series = Ok (float_of_int 100).
Proof.
  intros Hgrouped Hne.
  pose proof (grouped_counts_positive _ _ Hgrouped) as Hpos.
  assert (Forall (fun w => 1 <= w) (map snd data)) as Hws
    by (apply Forall_map; exact Hpos).
  assert (map snd data <> []) as Hne'
    by (destruct data; [congruence | discriminate]).
  pose proof (sum_positive _ Hws Hne') as Hsum.
  assert (sum (map snd data) <> 0) as Ht by lia.
  split.
  - eexists. eexists. split; [now apply pareto_chart_Ok|].
    cbn [line_y]. split; [now apply last_percentage|].
    pose proof (percent_of_total _ Ht) as H.
    split; [exact H|]. rewrite H. discriminate.
  - destruct (percent_cumsum64_Ok data) as [series [Hseries HF]].
    { revert Hpos. apply Forall_impl. intros entry. lia. }
    { exact Ht. }
    exists series. split; [exact Hseries|].
    destruct (Forall2_last_item _ _ _ _ HF (last_item_scan _ 0 Hne'))
      as [v [Hv Hp]].
    rewrite Z.add_0_l, percent64_total in Hp by exact Ht.
    injection Hp as <-. exact Hv.
Qed.

Lemma final_cumulative_percentage_witness :
  (exists fig p,
     pareto_chart (group_data ["a"; "b"]%string ["b"; "a"; "b"]%string true)
     = Ok fig
     /\ last_item (line_y fig) = Ok p
     /\ (p == 100)%Q
     /\ (Qabs (p - 100) <= 1 # 1000000000)%Q)
  /\ exists series,
       percent_cumsum64
         (group_data ["a"; "b"]%string ["b"; "a"; "b"]%string true)
       = Ok series
       /\ last_item series = Ok (float_of_int 100).
Proof.
  apply (final_cumulative_percentage ["b"; "a"; "b"]%string).
  - apply group_data_grouped_counts. exact set_listing_ab.
  - discriminate.
Defined.



Example percent_cumsum64_one_two :
  percent_cumsum64 [("A", 1); ("B", 2)]%string
  = Ok [S754_finite false 4691249611844266 (-47); float_of_int 100].
Proof. reflexivity. Qed.

Example percent_cumsum64_overflow :
  percent_cumsum64 [("A", 10 ^ 400); ("B", 1 - 10 ^ 400)]%string
  = Raise OverflowError
  /\ comprehension
       (cumulative_percentage64 [10 ^ 400; 1 - 10 ^ 400]) (seq 0 2)
     = Raise OverflowError.
Proof. split; vm_compute; reflexivity. Qed.

(** C7.  For a weight set, no weight negative, with a positive total
    weight, asking for no sample returns the empty list without an error
    and without a draw; [group_data] on the empty list returns the empty
    list. *)
Theorem boundary_no_samples_no_data (rand : nat -> Q)
    (weights : list (string * Z)) (g : rng)
    (categories : list string) (reverse : bool) :
  Forall (fun c => 0 <= snd c) weights ->
  0 < sum (map snd weights) ->
  set_listing [] categories ->
  generate_synthetic_data rand weights 0 g = (Ok [], g)
  /\ group_data categories [] reverse = [].
Proof.
  intros _ Ht [_ Hin]. split.
  - destruct (generate_nonzero_total rand weights 0 g) as [out [Hout [Hlen _]]];
      [lia|].
    destruct out; [|discriminate Hlen].
    rewrite Hout. simpl. now rewrite Nat.add_0_r.
  - destruct categories as [|c l]; [reflexivity|].
    exfalso. apply (Hin c). now left.
Qed.

Lemma boundary_no_samples_no_data_witness :
  generate_synthetic_data rand_demo weights_demo 0 0%nat = (Ok [], 0%nat)
  /\ group_data [] [] true = [].
Proof.
  apply boundary_no_samples_no_data.
  - repeat constructor; cbn; lia.
  - reflexivity.
  - exact set_listing_nil.
Defined.

(** * More on the stages, under the conditions rounding needs *)



(** X10.  For counts that are not negative, the only error of the
    computation of the series (lines 58-66, in binary64) is the division
    by a zero total, raised exactly for a sequence that is not empty and
    whose counts add up to zero: the running sum never fails and no
    quotient overflows.  The empty sequence gives the empty series. *)
Theorem percent_cumsum64_error (data : list (string * Z)) (e : exn) :
  Forall (fun entry => 0 <= snd entry) data ->
  percent_cumsum64 data = Raise e
  <-> e = ZeroDivisionError /\ data <> [] /\ sum (map snd data) = 0.
Proof.
  intros Hnonneg. split.
  - intros H. destruct (Z.eq_dec (sum (map snd data)) 0) as [E|E].
    + destruct data as [|d l]; [discriminate H|].
      rewrite percent_cumsum64_zero_total in H by (discriminate || exact E).
      injection H as <-. repeat split; [discriminate | exact E].
    + destruct (percent_cumsum64_Ok data Hnonneg E) as [series [Hs _]].
      rewrite Hs in H. discriminate H.
  - intros [-> [Hne Ht]]. now apply percent_cumsum64_zero_total.
Qed.

Lemma percent_cumsum64_error_witness :
  percent_cumsum64 [("A", 0); ("B", 0)]%string = Raise ZeroDivisionError
  <-> ZeroDivisionError = ZeroDivisionError
      /\ [("A", 0); ("B", 0)]%string <> []
      /\ sum (map snd [("A", 0); ("B", 0)]%string) = 0.
Proof.
  apply percent_cumsum64_error. repeat constructor; cbn; lia.
Defined.

(** X12.  Grouping what the Sampler returns: with no negative weight, a
    positive total weight and [N >= 0], the counts add up to [N], every
    name of the output is a name of the weight list, and there are at
    most as many entries as categories. *)
Theorem sample_then_group (rand : nat -> Q)
    (categories : list (string * Z)) (num_samples : Z) (g : rng) :
  Forall (fun c => 0 <= snd c) categories ->
  0 < sum (map snd categories) ->
  0 <= num_samples ->
  exists data,
    generate_synthetic_data rand categories num_samples g
    = (Ok data, (g + Z.to_nat num_samples)%nat)
    /\ forall listing reverse,
         set_listing data listing ->
         sum (counts (group_data listing data reverse)) = num_samples
         /\ (forall x, In x (names (group_data listing data reverse)) ->
                       In x (map fst categories))
         /\ (List.length (group_data listing data reverse)
             <= List.length categories)%nat.
Proof.
  intros _ Ht HN.
  destruct (generate_nonzero_total rand categories num_samples g)
    as [data [Hdata [Hlen Hall]]]; [lia|].
  exists data. split; [exact Hdata|]. intros listing reverse Hset.
  rewrite Forall_forall in Hall.
  pose proof (names_group_data listing data reverse) as Hnames.
  destruct Hset as [Hnd Hin]. split; [|split].
  - rewrite sum_counts_group_data by (split; assumption).
    unfold len. rewrite Hlen. lia.
  - intros x Hx. apply Hall, Hin. eapply Permutation_in; eassumption.
  - rewrite (Permutation_length (group_data_Permutation _ _ _)), length_map.
    rewrite <- (length_map fst categories).
    apply NoDup_incl_length; [exact Hnd|].
    intros x Hx. apply Hall. now apply Hin.
Qed.

Lemma sample_then_group_witness :
  exists data,
    generate_synthetic_data rand_demo weights_demo 5 0%nat
    = (Ok data, (0 + Z.to_nat 5)%nat)
    /\ forall listing reverse,
         set_listing data listing ->
         sum (counts (group_data listing data reverse)) = 5
         /\ (forall x, In x (names (group_data listing data reverse)) ->
                       In x (map fst weights_demo))
         /\ (List.length (group_data listing data reverse)
             <= List.length weights_demo)%nat.
Proof.
  apply sample_then_group.
  - repeat constructor; cbn; lia.
  - reflexivity.
  - lia.
Defined.

(** X16.  [main] charts the counts tallest first, and then the running
    sum rises by smaller and smaller steps: on the output of
    [group_data] with [reverse=True] the loop of the Renderer never
    fails, and no step of the list [cumsum] is larger than the step
    before it. *)
Theorem running_sum_is_concave (categories data : list string) :
  exists cumsum,
    running_sum (counts (group_data categories data true)) = Ok cumsum
    /\ forall i a b c,
         nth_error cumsum i = Some a ->
         nth_error cumsum (S i) = Some b ->
         nth_error cumsum (S (S i)) = Some c ->
         c - b <= b - a.
Proof.
  eexists. split; [apply running_sum_scan|].
  set (cnts := counts (group_data categories data true)).
  intros i a b c Ha Hb Hc.
  assert (S (S i) < List.length cnts)%nat as Hi.
  { rewrite <- (length_scan 0). apply nth_error_Some. now rewrite Hc. }
  rewrite nth_error_scan in Ha, Hb, Hc by lia.
  assert (a = 0 + sum (firstn (S i) cnts)) as -> by congruence.
  assert (b = 0 + sum (firstn (S (S i)) cnts)) as -> by congruence.
  assert (c = 0 + sum (firstn (S (S (S i))) cnts)) as -> by congruence.
  destruct (nth_error cnts (S i)) as [c1|] eqn:E1;
    [|apply nth_error_None in E1; lia].
  destruct (nth_error cnts (S (S i))) as [c2|] eqn:E2;
    [|apply nth_error_None in E2; lia].
  rewrite (sum_firstn_S _ _ _ E2), (sum_firstn_S _ _ _ E1).
  assert (c2 <= c1); [|lia].
  unfold cnts in E1, E2. rewrite counts_group_data in E1, E2.
  exact (Sorted_adjacent _ _ (sorted_Sorted (fun k : Z => k) true _)
           (S i) c1 c2 E1 E2).
Qed.

Example running_sum_three_steps :
  group_data ["x"; "y"; "z"]%string ["z"; "y"; "x"; "y"; "z"; "y"]%string true
  = [("y", 3); ("z", 2); ("x", 1)]%string
  /\ running_sum [3; 2; 1] = Ok [3; 5; 6].
Proof. split; reflexivity. Qed.
